(** * gha-debug: the workflow execution engine and its loader

    A shallow embedding of [src/gha_debug/runner.py] (class
    [WorkflowRunner]), of [src/gha_debug/parser.py]
    ([WorkflowParser.parse], [get_job]) and of
    [src/gha_debug/validator.py], with the properties of the execution
    model: fail-fast job and step loops, step dispatch, job filtering,
    environment layering, exception containment and the shape of the
    run result.

    Python dictionaries with string keys are [gmap string _]; the
    run-time effects (clock, console, subprocess) are threaded through a
    small event-emitting exception monad whose oracles may depend on
    the whole history of the run.  The calls out of the interpreter
    can raise in the model as they can in the source: [subprocess.run]
    (an [Exception], or the [KeyboardInterrupt] that ends its wait and
    that [except Exception] lets through), [time.sleep] (a
    [KeyboardInterrupt]) and [console.print], which parses the text it
    is given as markup and raises [MarkupError] on a closing tag that
    matches no open one. *)

From Stdlib Require Import ZArith Lia Ascii.
From stdpp Require Import base option list strings gmap pretty.

#[local] Set Warnings "-clear-no-such-hyp,-register-all".

Local Open Scope Z_scope.

(** ** Python values as the runner observes them *)

(** The workflow dictionary is typed [Dict[str, Any]]: a field holds
    whatever the YAML document held.  The runner only ever asks three
    things of such a value: its truth value ([if step.get("uses")]), its
    [str()] (f-strings, the coercion in [_build_environment]) and whether
    it equals a given [str].  [VObj] stands for every other object
    (floats, lists, dictionaries, dates), described by exactly the first
    two observations; none of them compares equal to a [str]. *)
Inductive value : Type :=
| VNone
| VBool (b : bool)
| VInt (z : Z)
| VStr (s : string)
| VObj (truth : bool) (repr : string).

(** [bool(v)] *)
Definition truthy (v : value) : bool :=
  match v with
  | VNone => false
  | VBool b => b
  | VInt z => negb (z =? 0)
  | VStr s => negb (String.eqb s "")
  | VObj t _ => t
  end.

(** [str(v)] *)
Definition py_str (v : value) : string :=
  match v with
  | VNone => "None"
  | VBool true => "True"
  | VBool false => "False"
  | VInt z => pretty z
  | VStr s => s
  | VObj _ r => r
  end.

(** [v == s] for a [str] [s] *)
Definition py_eq_str (v : value) (s : string) : bool :=
  match v with
  | VStr s' => String.eqb s' s
  | _ => false
  end.

(** [isinstance(v, str)] *)
Definition is_str (v : value) : bool :=
  match v with
  | VStr _ => true
  | _ => false
  end.

(** [s.strip()].  A [str] is kept as the bytes of its UTF-8 encoding;
    [whitespace] lists, in that encoding, the characters [str.strip]
    removes: U+0009..U+000D, U+001C..U+0020, U+0085, U+00A0, U+1680,
    U+2000..U+200A, U+2028, U+2029, U+202F, U+205F and U+3000. *)
Definition whitespace : list (list ascii) :=
  map (map (λ z, ascii_of_nat (Z.to_nat z)))
  [ [9]; [10]; [11]; [12]; [13]; [28]; [29]; [30]; [31]; [32];
    [194; 133]; [194; 160]; [225; 154; 128];
    [226; 128; 128]; [226; 128; 129]; [226; 128; 130]; [226; 128; 131];
    [226; 128; 132]; [226; 128; 133]; [226; 128; 134]; [226; 128; 135];
    [226; 128; 136]; [226; 128; 137]; [226; 128; 138];
    [226; 128; 168]; [226; 128; 169]; [226; 128; 175];
    [226; 129; 159]; [227; 128; 128] ].

Fixpoint starts_with (w s : list ascii) : bool :=
  match w, s with
  | [], _ => true
  | a :: w, b :: s => Ascii.eqb a b && starts_with w s
  | _ :: _, [] => false
  end.

(** [s] without the one character of [ws] it starts with, if any. *)
Fixpoint drop_one (ws : list (list ascii)) (s : list ascii) : option (list ascii) :=
  match ws with
  | [] => None
  | w :: ws => if starts_with w s then Some (drop (length w) s) else drop_one ws s
  end.

Fixpoint lstrip (fuel : nat) (ws : list (list ascii)) (s : list ascii) : list ascii :=
  match fuel with
  | O => s
  | S fuel =>
      match drop_one ws s with
      | Some s' => lstrip fuel ws s'
      | None => s
      end
  end.

Definition strip (s : string) : string :=
  let l := String.list_ascii_of_string s in
  let l := lstrip (length l) whitespace l in
  let l := reverse (lstrip (length l) (reverse <$> whitespace) (reverse l)) in
  String.string_of_list_ascii l.

(** ** The workflow dictionary, as [WorkflowParser.parse] lays it out *)

Module Step.
Record t : Type := mk {
  name : value;
  uses : value;                 (* [None] when the key is absent *)
  run : value;                  (* [None] when the key is absent *)
  env : gmap string value;      (* [step.get("env", {})] *)
  with_ : value
}.
End Step.

Module Job.
Record t : Type := mk {
  id : value;
  name : value;
  runs_on : value;
  env : gmap string value;      (* [job.get("env", {})] *)
  steps : list Step.t
}.
End Job.

Module Workflow.
Record t : Type := mk {
  name : value;
  env : gmap string value;      (* [workflow.get("env", {})] *)
  jobs : list Job.t
}.
End Workflow.

(** The instance fields of [WorkflowRunner] ([formatter] is stateless). *)
Record WorkflowRunner : Type := {
  workflow : Workflow.t;
  verbose : bool
}.

(** The dictionary returned by [run]; [error] is [None] when the key is
    absent. *)
Record RunResult : Type := {
  success : bool;
  error : option string;
  total_time : Z
}.

(** ** Effects *)

(** What [subprocess.run] did: it returned a [CompletedProcess] (the
    runner reads [returncode] and [stderr]), or raised an [Exception]
    ([OSError], [TypeError], ...), or raised a [BaseException] that is
    not an [Exception]: the [KeyboardInterrupt] it re-raises when the
    wait for the child is interrupted.  An exception is kept by its
    [str(e)]. *)
Inductive proc_result : Type :=
| Completed (returncode : Z) (stderr : string)
| Raised (e : string)
| Interrupted (e : string).

(** The exceptions at large in a run, by where they come from. *)
Inductive exn : Type :=
| ProcessError (e : string)       (* an [Exception] out of [subprocess.run] *)
| Interrupt (e : string)          (* a [KeyboardInterrupt] out of a blocking call *)
| ConsoleError (e : string).      (* out of [console.print]: rich's [MarkupError] *)

(** [isinstance(e, Exception)] *)
Definition is_Exception (e : exn) : bool :=
  match e with
  | Interrupt _ => false
  | ProcessError _ | ConsoleError _ => true
  end.

(** [str(e)] *)
Definition exn_str (e : exn) : string :=
  match e with
  | ProcessError s | Interrupt s | ConsoleError s => s
  end.

(** Lines handed to the console, by what they carry. *)
Inductive console_line : Type :=
| JobHeader (name : value)                      (* [Job: {job['name']}] *)
| UsingAction (action : value)                  (* verbose only *)
| WithParams (params : value)                   (* verbose only *)
| Running (command : value)                     (* verbose only *)
| StderrText (stderr : string)                  (* carries [result.stderr.strip()] *)
| ErrorText (e : string)                        (* [Error: {str(e)}] *)
| StepSuccess (name : value) (elapsed : Z)
| StepFailure (name : value) (elapsed : Z).

(** The observable history of a run.  [EvRunJob] and [EvRunStep] mark
    the two call sites [self._run_job(job)] and
    [self._run_step(step, env)]: a job or a step is dispatched when the
    corresponding call is made. *)
Inductive event : Type :=
| EvTime (t : Z)                                (* [time.time()] returned [t] *)
| EvRunJob (job : Job.t)
| EvRunStep (job : Job.t) (step : Step.t)
| EvPrint (line : console_line)
| EvSleep                                       (* [time.sleep(0.1)] returned *)
| EvSubprocess (command : value) (env : gmap string value)
               (capture_output : bool) (r : proc_result).

Inductive outcome (A : Type) : Type :=
| Ret (a : A)
| Raise (e : exn).
Arguments Ret {A} a.
Arguments Raise {A} e.

(** A computation reads the history so far and yields its outcome
    together with the events it emitted, oldest first. *)
Definition M (A : Type) : Type := list event → outcome A * list event.

#[global] Instance M_mret : MRet M := λ A a _, (Ret a, []).

#[global] Instance M_bind : MBind M := λ A B f m h,
  match m h with
  | (Ret a, e1) => let '(r, e2) := f a (h ++ e1) in (r, e1 ++ e2)
  | (Raise x, e1) => (Raise x, e1)
  end.

Definition emit (e : event) : M unit := λ _, (Ret tt, [e]).

(** [try: m  except Exception as e: handler (str(e))]: an exception
    that is not an [Exception] passes through. *)
Definition try_except {A} (m : M A) (handler : string → M A) : M A := λ h,
  match m h with
  | (Ret a, e1) => (Ret a, e1)
  | (Raise x, e1) =>
      if is_Exception x
      then let '(r, e2) := handler (exn_str x) (h ++ e1) in (r, e1 ++ e2)
      else (Raise x, e1)
  end.

(** [dict.update] and [{**a, **b}]: the right operand wins. *)
Definition dict_update (a b : gmap string value) : gmap string value := b ∪ a.

(** The world outside the interpreter: the wall clock, the ambient
    process environment, the host shell, the console and the user at
    the keyboard.  The clock, the shell and the console may answer
    differently as the run proceeds, so each is a function of the
    history.  [console h line] is [None] when the console prints the
    line, and [Some e] when [console.print] raises instead, [e] being
    the [str] of the exception (the line then does not appear).
    [sleep h] is [None] when [time.sleep] returns, and [Some e] when it
    is cut short by a [KeyboardInterrupt] whose [str] is [e]. *)
Class World : Type := {
  clock : list event → Z;
  os_environ : gmap string string;
  shell : list event → value → gmap string value → bool → proc_result;
  console : list event → console_line → option string;
  sleep : list event → option string
}.

Section Runner.

Context `{!World}.

Variable self : WorkflowRunner.

Definition time_time : M Z := λ h, (Ret (clock h), [EvTime (clock h)]).

(** [time.sleep(0.1)] *)
Definition time_sleep : M unit := λ h,
  match sleep h with
  | None => (Ret tt, [EvSleep])
  | Some e => (Raise (Interrupt e), [])
  end.

(** [console.print(...)] and the two printing methods of [Formatter]. *)
Definition console_print (line : console_line) : M unit := λ h,
  match console h line with
  | None => (Ret tt, [EvPrint line])
  | Some e => (Raise (ConsoleError e), [])
  end.

(** [subprocess.run(command, shell=True, env=env, capture_output=...,
    text=True)] *)
Definition subprocess_run (command : value) (env : gmap string value)
    (capture_output : bool) : M (Z * string) := λ h,
  match shell h command env capture_output with
  | Completed rc err =>
      (Ret (rc, err), [EvSubprocess command env capture_output (Completed rc err)])
  | Raised x =>
      (Raise (ProcessError x),
       [EvSubprocess command env capture_output (Raised x)])
  | Interrupted x =>
      (Raise (Interrupt x),
       [EvSubprocess command env capture_output (Interrupted x)])
  end.

(** The dictionary literal opening [_build_environment]. *)
Definition context_vars (job : Job.t) : list (string * value) :=
  [ ("CI", VStr "true");
    ("GITHUB_ACTIONS", VStr "true");
    ("GITHUB_WORKFLOW", Workflow.name (workflow self));
    ("GITHUB_JOB", Job.id job);
    ("GITHUB_RUNNER_OS", VStr "Linux");
    ("RUNNER_OS", VStr "Linux") ].

Definition _build_environment (job : Job.t) : gmap string value :=
  let env : gmap string value := list_to_map (context_vars job) in
  let env := dict_update env (Workflow.env (workflow self)) in
  let env := dict_update env (Job.env job) in
  (λ v, VStr (py_str v)) <$> env.

Definition _run_action (step : Step.t) (env : gmap string value) : M bool :=
  let action := Step.uses step in
  (if verbose self then
     console_print (UsingAction action);;
     if truthy (Step.with_ step)
     then console_print (WithParams (Step.with_ step))
     else mret tt
   else mret tt);;
  time_sleep;;
  mret true.

Definition _run_command (step : Step.t) (env : gmap string value) : M bool :=
  let command := Step.run step in
  (if verbose self then console_print (Running command) else mret tt);;
  try_except
    (result ← subprocess_run command
               (dict_update (VStr <$> os_environ) env)
               (negb (verbose self));
     if result.1 =? 0 then mret true
     else
       (if negb (verbose self) && truthy (VStr result.2)
        then console_print (StderrText (strip result.2))
        else mret tt);;
       mret false)
    (λ e,
      console_print (ErrorText e);;
      mret false).

(** The local [step_env] of [_run_step]. *)
Definition step_env (env : gmap string value) (step : Step.t) : gmap string value :=
  dict_update env (Step.env step).

Definition _run_step (step : Step.t) (env : gmap string value) : M bool :=
  start_time ← time_time;
  let step_env := step_env env step in
  success ←
    (if truthy (Step.uses step) then _run_action step step_env
     else if truthy (Step.run step) then _run_command step step_env
     else mret true);
  now ← time_time;
  let elapsed := now - start_time in
  (if success : bool
   then console_print (StepSuccess (Step.name step) elapsed)
   else console_print (StepFailure (Step.name step) elapsed));;
  mret success.

(** [for step in job["steps"]: ...] with its early [return False]. *)
Fixpoint for_steps (job : Job.t) (env : gmap string value)
    (steps : list Step.t) : M bool :=
  match steps with
  | [] => mret true
  | step :: rest =>
      emit (EvRunStep job step);;
      success ← _run_step step env;
      if negb success then mret false
      else for_steps job env rest
  end.

Definition _run_job (job : Job.t) : M bool :=
  console_print (JobHeader (Job.name job));;
  let env := _build_environment job in
  for_steps job env (Job.steps job).

(** [for job in jobs_to_run: ...] with its early [return], followed by
    the success epilogue of [run]. *)
Fixpoint for_jobs (start_time : Z) (jobs_to_run : list Job.t) : M RunResult :=
  match jobs_to_run with
  | [] =>
      now ← time_time;
      let total_time := now - start_time in
      mret {| success := true; error := None; total_time := total_time |}
  | job :: rest =>
      emit (EvRunJob job);;
      success ← _run_job job;
      if negb success then
        now ← time_time;
        let total_time := now - start_time in
        mret {| success := false;
                error := Some ("Job '" +:+ py_str (Job.id job) +:+ "' failed");
                total_time := total_time |}
      else for_jobs start_time rest
  end.

(** [if job_filter:] holds for a [str] that is not empty; the
    comparison [j["id"] == job_filter] is then against that [str]. *)
Definition run (job_filter : option string) : M RunResult :=
  start_time ← time_time;
  let jobs_to_run := Workflow.jobs (workflow self) in
  match job_filter with
  | Some x =>
      if truthy (VStr x) then
        let jobs_to_run :=
          List.filter (λ j, py_eq_str (Job.id j) x) jobs_to_run in
        match jobs_to_run with
        | [] =>
            mret {| success := false;
                    error := Some ("Job '" +:+ x +:+ "' not found");
                    total_time := 0 |}
        | _ :: _ => for_jobs start_time jobs_to_run
        end
      else for_jobs start_time jobs_to_run
  | None => for_jobs start_time jobs_to_run
  end.

End Runner.

(** ** The loader: [WorkflowParser.parse] *)

Module Loader.

(** What [yaml.safe_load] can build: scalars, byte strings, dates and
    timestamps, sequences, the tuples of [!!omap] and [!!pairs], sets
    and mappings.  A mapping is kept as its items in document order. *)
Inductive yaml : Type :=
| YNull
| YBool (b : bool)
| YInt (z : Z)
| YFloat (literal : string)
| YStr (s : string)
| YBytes (b : list Z)
| YDate (iso : string)
| YDateTime (iso : string)
| YSeq (items : list yaml)
| YTuple (items : list yaml)
| YSet (items : list yaml)
| YMap (items : list (yaml * yaml)).

(** The type of [v], as the messages of [TypeError] and
    [AttributeError] name it. *)
Definition type_name (v : yaml) : string :=
  match v with
  | YNull => "NoneType"
  | YBool _ => "bool"
  | YInt _ => "int"
  | YFloat _ => "float"
  | YStr _ => "str"
  | YBytes _ => "bytes"
  | YDate _ => "datetime.date"
  | YDateTime _ => "datetime.datetime"
  | YSeq _ => "list"
  | YTuple _ => "tuple"
  | YSet _ => "set"
  | YMap _ => "dict"
  end.

(** [d.get(key, default)] for a [str] key. *)
Fixpoint get (d : list (yaml * yaml)) (key : string) (default : yaml) : yaml :=
  match d with
  | [] => default
  | (YStr k, v) :: rest => if String.eqb k key then v else get rest key default
  | _ :: rest => get rest key default
  end.

(** The elements a [for] loop draws from [v]; [None] when [v] is not
    iterable and the loop raises [TypeError]. *)
Definition iterate (v : yaml) : option (list yaml) :=
  match v with
  | YStr s => Some ((λ c, YStr (String c EmptyString)) <$> String.list_ascii_of_string s)
  | YBytes b => Some (YInt <$> b)
  | YSeq items | YTuple items | YSet items => Some items
  | YMap items => Some (items.*1)
  | YNull | YBool _ | YInt _ | YFloat _ | YDate _ | YDateTime _ => None
  end.

Inductive exn : Type :=
| FileNotFoundError (msg : string)
| ValueError (msg : string)
| OSError (msg : string)            (* [open] on a directory, without permission *)
| AttributeError (msg : string)
| TypeError (msg : string).

Record Path : Type := { path_str : string; stem : string }.

(** The dictionaries [parse] builds; a field holds whatever node the
    document had under the key. *)
Record step_dict : Type := {
  step_name : yaml; step_uses : yaml; step_run : yaml;
  step_env : yaml; step_with : yaml
}.

Record job_dict : Type := {
  job_id : yaml; job_name : yaml; job_runs_on : yaml;
  job_env : yaml; job_steps : list step_dict
}.

Record workflow_dict : Type := {
  wf_name : yaml; wf_env : yaml; wf_jobs : list job_dict
}.

(** The files and the YAML library. *)
Inductive opened : Type :=
| OpenFails (e : string)
| Opened (text : string).

(** What [yaml.safe_load] did: it raised a [yaml.YAMLError], or raised
    a [ValueError] that is none (the timestamp [2024-13-01],
    [!!int abc]), or returned the document.  An exception is kept by
    its [str(e)]. *)
Inductive loaded : Type :=
| YAMLError (e : string)
| LoadRaises (e : string)
| Document (data : yaml).

Class Files : Type := {
  path_exists : Path → bool;
  open_read : Path → opened;
  safe_load : string → loaded
}.

Record WorkflowParser : Type := { workflow_path : Path }.

Section Parse.

Context `{!Files}.

(** The body of the inner loop: one entry of [parsed_steps], or
    nothing for a step that is not a dictionary. *)
Definition parse_step (step : yaml) : option step_dict :=
  match step with
  | YMap step =>
      let step_name :=
        get step "name" (get step "uses" (get step "run" (YStr "Unnamed step"))) in
      Some {| step_name := step_name;
              step_uses := get step "uses" YNull;
              step_run := get step "run" YNull;
              step_env := get step "env" (YMap []);
              step_with := get step "with" (YMap []) |}
  | _ => None
  end.

(** [for job_id, job_data in jobs.items(): ...] *)
Fixpoint parse_jobs (items : list (yaml * yaml)) : exn + list job_dict :=
  match items with
  | [] => inr []
  | (job_id, job_data) :: rest =>
      match job_data with
      | YMap job_data =>
          let steps := get job_data "steps" (YSeq []) in
          match iterate steps with
          | None =>
              inl (TypeError ("'" +:+ type_name steps +:+ "' object is not iterable"))
          | Some steps =>
              let parsed_steps := omap parse_step steps in
              match parse_jobs rest with
              | inl e => inl e
              | inr parsed_jobs =>
                  inr ({| job_id := job_id;
                          job_name := get job_data "name" job_id;
                          job_runs_on := get job_data "runs-on" (YStr "ubuntu-latest");
                          job_env := get job_data "env" (YMap []);
                          job_steps := parsed_steps |} :: parsed_jobs)
              end
          end
      | _ => parse_jobs rest
      end
  end.

Definition parse (self : WorkflowParser) : exn + workflow_dict :=
  let path := workflow_path self in
  if negb (path_exists path) then
    inl (FileNotFoundError ("Workflow file not found: " +:+ path_str path))
  else
    match open_read path with
    | OpenFails e => inl (OSError e)
    | Opened f =>
        match safe_load f with
        | YAMLError e => inl (ValueError ("Invalid YAML in workflow file: " +:+ e))
        | LoadRaises e => inl (ValueError e)  (* not a [yaml.YAMLError]: not caught *)
        | Document (YMap data) =>
            let workflow_name := get data "name" (YStr (stem path)) in
            let jobs := get data "jobs" (YMap []) in
            let env := get data "env" (YMap []) in
            match jobs with
            | YMap items =>
                match parse_jobs items with
                | inl e => inl e
                | inr parsed_jobs =>
                    inr {| wf_name := workflow_name; wf_env := env;
                           wf_jobs := parsed_jobs |}
                end
            | _ =>
                inl (AttributeError
                       ("'" +:+ type_name jobs +:+ "' object has no attribute 'items'"))
            end
        | Document _ => inl (ValueError "Workflow file must contain a YAML dictionary")
        end
    end.

End Parse.

(** [v == s] for a [str] [s]: only a [str] node can be equal to it. *)
Definition yaml_eq_str (v : yaml) (s : string) : bool :=
  match v with
  | YStr s' => String.eqb s' s
  | _ => false
  end.

(** [isinstance(v, dict)] *)
Definition is_dict (v : yaml) : bool :=
  match v with
  | YMap _ => true
  | _ => false
  end.

(** [key in d] for a [str] key. *)
Definition has_key (d : list (yaml * yaml)) (key : string) : bool :=
  existsb (λ kv, yaml_eq_str kv.1 key) d.

(** [WorkflowParser.get_job]: the loop over [workflow["jobs"]] with its
    early [return], and the [raise] after it. *)
Fixpoint find_job (jobs : list job_dict) (job_id : string) : exn + job_dict :=
  match jobs with
  | [] => inl (ValueError ("Job '" +:+ job_id +:+ "' not found in workflow"))
  | job :: rest =>
      if yaml_eq_str (Loader.job_id job) job_id then inr job
      else find_job rest job_id
  end.

Definition get_job (workflow : workflow_dict) (job_id : string) : exn + job_dict :=
  find_job (wf_jobs workflow) job_id.

End Loader.

(** ** The validator: [WorkflowValidator.validate] *)

Module Validator.

Import Loader.

(** The error strings [validate] returns, by what they carry. *)
Inductive message : Type :=
| FileNotFound (path : string)           (* [File not found: {workflow_path}] *)
| InvalidYaml (e : string)               (* [Invalid YAML syntax: {e}] *)
| NotADictionary                         (* [Workflow must be a YAML dictionary] *)
| MissingJobs                            (* [Missing required field: 'jobs'] *)
| JobsNotDictionary                      (* ['jobs' must be a dictionary] *)
| NoJobs                                 (* [Workflow must have at least one job] *)
| JobNotDictionary (job_id : yaml)       (* [Job '{job_id}' must be a dictionary] *)
| JobMissingSteps (job_id : yaml)        (* [Job '{job_id}' missing required field: 'steps'] *)
| StepsNotList (job_id : yaml)           (* [Job '{job_id}': 'steps' must be a list] *)
| JobNoSteps (job_id : yaml)             (* [Job '{job_id}' must have at least one step] *)
| StepNotDictionary (job_id : yaml) (idx : nat)
| StepNeedsUsesOrRun (job_id : yaml) (idx : nat)
| StepHasBoth (job_id : yaml) (idx : nat)
| HintEmptyExpression                    (* [Syntax hint: ... '${{ }}' not '${{}}'] *)
| WarnMissingOn.                         (* [Warning: Missing 'on:' trigger configuration] *)

(** The messages of the structural pass, as opposed to the two
    advisory ones [_validate_syntax_patterns] may add. *)
Definition structural (m : message) : bool :=
  match m with
  | HintEmptyExpression | WarnMissingOn => false
  | _ => true
  end.

(** [needle in hay] on strings. *)
Fixpoint contains (needle hay : string) : bool :=
  String.prefix needle hay ||
  match hay with
  | EmptyString => false
  | String _ rest => contains needle rest
  end.

Section Validate.

Context `{!Files}.

(** Whether the float written [literal] in the document equals [1.0]:
    the one thing [True in data] asks of a float key. *)
Variable float_is_one : string → bool.

(** [True in data]: a key equal to [True], which [1] and [1.0] are. *)
Definition is_true_key (k : yaml) : bool :=
  match k with
  | YBool b => b
  | YInt z => z =? 1
  | YFloat literal => float_is_one literal
  | _ => false
  end.

Definition has_true_key (d : list (yaml * yaml)) : bool :=
  existsb (λ kv, is_true_key kv.1) d.

(** The body of the loop over [enumerate(job_data["steps"])]. *)
Definition check_step (job_id : yaml) (idx : nat) (step : yaml) : list message :=
  match step with
  | YMap step =>
      let has_uses := has_key step "uses" in
      let has_run := has_key step "run" in
      (if negb has_uses && negb has_run then [StepNeedsUsesOrRun job_id idx] else [])
      ++ (if has_uses && has_run then [StepHasBoth job_id idx] else [])
  | _ => [StepNotDictionary job_id idx]
  end.

Fixpoint check_steps (job_id : yaml) (idx : nat) (steps : list yaml) : list message :=
  match steps with
  | [] => []
  | step :: rest => check_step job_id idx step ++ check_steps job_id (S idx) rest
  end.

(** The body of the loop over [data["jobs"].items()]. *)
Definition check_job (job_id job_data : yaml) : list message :=
  match job_data with
  | YMap job_data =>
      if negb (has_key job_data "steps") then [JobMissingSteps job_id]
      else
        match get job_data "steps" YNull with
        | YSeq steps =>
            (match steps with [] => [JobNoSteps job_id] | _ :: _ => [] end)
            ++ check_steps job_id 0 steps
        | _ => [StepsNotList job_id]
        end
  | _ => [JobNotDictionary job_id]
  end.

Fixpoint check_jobs (items : list (yaml * yaml)) : list message :=
  match items with
  | [] => []
  | (job_id, job_data) :: rest => check_job job_id job_data ++ check_jobs rest
  end.

(** Appends to [errors], as the source does in place. *)
Definition _validate_syntax_patterns (raw_content : string)
    (data : list (yaml * yaml)) (errors : list message) : list message :=
  let errors :=
    if contains "${{}}" raw_content then errors ++ [HintEmptyExpression] else errors in
  if negb (has_key data "on") && negb (has_true_key data)
  then errors ++ [WarnMissingOn] else errors.

Definition validate (workflow_path : Path) : exn + list message :=
  if negb (path_exists workflow_path) then
    inr [FileNotFound (path_str workflow_path)]
  else
    match open_read workflow_path with
    | OpenFails e => inl (OSError e)
    | Opened raw_content =>
        match safe_load raw_content with
        | YAMLError e => inr [InvalidYaml e]
        | LoadRaises e => inl (ValueError e)  (* not a [yaml.YAMLError]: not caught *)
        | Document (YMap data) =>
            if negb (has_key data "jobs") then inr [MissingJobs]
            else
              match get data "jobs" YNull with
              | YMap jobs =>
                  let errors :=
                    (match jobs with [] => [NoJobs] | _ :: _ => [] end)
                    ++ check_jobs jobs in
                  inr (_validate_syntax_patterns raw_content data errors)
              | _ => inr [JobsNotDictionary]
              end
        | Document _ => inr [NotADictionary]
        end
    end.

End Validate.

End Validator.

(** The local [jobs_to_run] of [run] once the filter is applied. *)
Definition jobs_to_run (self : WorkflowRunner) (job_filter : option string) : list Job.t :=
  match job_filter with
  | Some x =>
      if truthy (VStr x)
      then List.filter (λ j, py_eq_str (Job.id j) x) (Workflow.jobs (workflow self))
      else Workflow.jobs (workflow self)
  | None => Workflow.jobs (workflow self)
  end.

Definition not_found (x : string) : RunResult :=
  {| success := false; error := Some ("Job '" +:+ x +:+ "' not found"); total_time := 0 |}.

(** ** Reading a history *)

Definition jobs_dispatched (evs : list event) : list Job.t :=
  omap (λ e, match e with EvRunJob j => Some j | _ => None end) evs.

Definition steps_dispatched (evs : list event) : list (Job.t * Step.t) :=
  omap (λ e, match e with EvRunStep j s => Some (j, s) | _ => None end) evs.

(** The value each dispatched step returned, from the line it reported. *)
Definition step_outcomes (evs : list event) : list bool :=
  omap (λ e, match e with
             | EvPrint (StepSuccess _ _) => Some true
             | EvPrint (StepFailure _ _) => Some false
             | _ => None
             end) evs.

(** Every step of every job, in declared order. *)
Definition all_steps (jobs : list Job.t) : list (Job.t * Step.t) :=
  j ← jobs; pair j <$> Job.steps j.

(** The two ways a loop over jobs can end, read off the history: every
    step of every job was dispatched and passed, or the loop stopped at
    step [s] of job [j], the only step that failed and the last thing
    dispatched. *)
Definition ran_all (jobs : list Job.t) (evs : list event) : Prop :=
  jobs_dispatched evs = jobs ∧
  steps_dispatched evs = all_steps jobs ∧
  step_outcomes evs = replicate (length (all_steps jobs)) true.

Definition stopped_at (jobs jpre : list Job.t) (j : Job.t) (jpost : list Job.t)
    (spre : list Step.t) (s : Step.t) (spost : list Step.t)
    (evs : list event) : Prop :=
  jobs = jpre ++ j :: jpost ∧
  Job.steps j = spre ++ s :: spost ∧
  jobs_dispatched evs = jpre ++ [j] ∧
  steps_dispatched evs = all_steps jpre ++ (pair j <$> spre ++ [s]) ∧
  step_outcomes evs = replicate (length (all_steps jpre) + length spre) true ++ [false].

(** How the loop over jobs ended, with the result it built. *)
Definition loop_end (jobs : list Job.t) (r : RunResult) (mid : list event) : Prop :=
  (success r = true ∧ error r = None ∧ ran_all jobs mid)
  ∨ (∃ jpre j jpost spre s spost,
       success r = false ∧
       error r = Some ("Job '" +:+ py_str (Job.id j) +:+ "' failed") ∧
       stopped_at jobs jpre j jpost spre s spost mid).

(** How a run that raised was cut short: in job [j], at its header,
    before any of its steps, or in its step [s].  Every step dispatched
    before that had passed. *)
Definition aborted_at (jobs : list Job.t) (evs : list event) : Prop :=
  ∃ jpre j jpost,
    jobs = jpre ++ j :: jpost ∧
    jobs_dispatched evs = jpre ++ [j] ∧
    ((steps_dispatched evs = all_steps jpre ∧
      step_outcomes evs = replicate (length (all_steps jpre)) true)
     ∨ (∃ spre s spost,
          Job.steps j = spre ++ s :: spost ∧
          steps_dispatched evs = all_steps jpre ++ (pair j <$> spre ++ [s]) ∧
          step_outcomes evs = replicate (length (all_steps jpre) + length spre) true)).

(** [post m h Q E]: started after history [h], [m] either returns a
    value that, with the events it emitted, satisfies [Q], or raises an
    exception that, with the events emitted until then, satisfies [E]. *)
Definition post {A} (m : M A) (h : list event)
    (Q : A → list event → Prop) (E : exn → list event → Prop) : Prop :=
  match m h with
  | (Ret a, evs) => Q a evs
  | (Raise x, evs) => E x evs
  end.

(** Two assumptions on the world a run may be made under: the console
    prints every line it is given, and neither a wait for a child
    process nor a pause is interrupted. *)
Definition console_accepts `{!World} : Prop :=
  ∀ h line, console h line = None.

Definition uninterrupted `{!World} : Prop :=
  (∀ h command env capture_output e,
     shell h command env capture_output ≠ Interrupted e)
  ∧ (∀ h, sleep h = None).

(** The history at the moment [_run_step], entered after [h], calls
    [subprocess.run] for a command step: the clock has been read, and
    the command echoed when verbose. *)
Definition call_history `{!World} (self : WorkflowRunner) (step : Step.t)
    (h : list event) : list event :=
  (h ++ [EvTime (clock h)])
  ++ (if verbose self then [EvPrint (Running (Step.run step))] else []).

(** The environment given to that call, and what the host shell
    answers. *)
Definition passed_env `{!World} (env : gmap string value) (step : Step.t)
    : gmap string value :=
  dict_update (VStr <$> os_environ) (step_env env step).

Definition shell_answer `{!World} (self : WorkflowRunner)
    (env : gmap string value) (step : Step.t) (h : list event) : proc_result :=
  shell (call_history self step h) (Step.run step) (passed_env env step)
    (negb (verbose self)).

(** The keys of the simulated CI context. *)
Definition context_keys : list string :=
  [ "CI"; "GITHUB_ACTIONS"; "GITHUB_WORKFLOW"; "GITHUB_JOB";
    "GITHUB_RUNNER_OS"; "RUNNER_OS" ].

(** ** Reading more of a history *)

(** The calls of [subprocess.run]: command, environment, [capture_output]. *)
Definition spawns (evs : list event) : list (value * gmap string value * bool) :=
  omap (λ e, match e with
             | EvSubprocess c env cap _ => Some (c, env, cap)
             | _ => None
             end) evs.

(** How often [time.sleep] was called. *)
Definition sleeps (evs : list event) : nat :=
  length (omap (λ e, match e with EvSleep => Some tt | _ => None end) evs).

Definition printed (evs : list event) : list console_line :=
  omap (λ e, match e with EvPrint l => Some l | _ => None end) evs.

(** The names under which steps were reported, and the seconds reported. *)
Definition reported_names (evs : list event) : list value :=
  omap (λ e, match e with
             | EvPrint (StepSuccess n _) | EvPrint (StepFailure n _) => Some n
             | _ => None
             end) evs.

Definition reported_elapsed (evs : list event) : list Z :=
  omap (λ e, match e with
             | EvPrint (StepSuccess _ t) | EvPrint (StepFailure _ t) => Some t
             | _ => None
             end) evs.

Definition job_headers (evs : list event) : list value :=
  omap (λ e, match e with EvPrint (JobHeader n) => Some n | _ => None end) evs.

(** The branch [_run_step] takes, by its two tests. *)
Definition is_action (step : Step.t) : bool := truthy (Step.uses step).

Definition is_command (step : Step.t) : bool :=
  negb (truthy (Step.uses step)) && truthy (Step.run step).

(** The call of [subprocess.run] a step makes when it is dispatched with
    the job environment [env]: none unless it is a command step. *)
Definition spawn_with `{!World} (self : WorkflowRunner)
    (env : gmap string value) (step : Step.t)
    : option (value * gmap string value * bool) :=
  if is_command step
  then Some (Step.run step,
             dict_update (VStr <$> os_environ) (step_env env step),
             negb (verbose self))
  else None.

Definition spawn_of `{!World} (self : WorkflowRunner) (js : Job.t * Step.t)
    : option (value * gmap string value * bool) :=
  spawn_with self (_build_environment self js.1) js.2.

(** The console lines a runner may print, by its [verbose] flag: the
    echo of actions and commands only when verbose, captured standard
    error only when not. *)
Definition line_allowed (verbose : bool) (line : console_line) : bool :=
  match line with
  | UsingAction _ | WithParams _ | Running _ => verbose
  | StderrText _ => negb verbose
  | JobHeader _ | ErrorText _ | StepSuccess _ _ | StepFailure _ _ => true
  end.

(** Everything a history shows is accounted for by what it dispatched:
    one process per command step, one pause per action step, one report
    per step under its name, one header per job, and no console line the
    [verbose] flag rules out. *)
Definition accounted `{!World} (self : WorkflowRunner) (evs : list event) : Prop :=
  spawns evs = omap (spawn_of self) (steps_dispatched evs) ∧
  sleeps evs = length (List.filter (λ js, is_action js.2) (steps_dispatched evs)) ∧
  reported_names evs = (λ js, Step.name js.2) <$> steps_dispatched evs ∧
  length (step_outcomes evs) = length (steps_dispatched evs) ∧
  job_headers evs = Job.name <$> jobs_dispatched evs ∧
  Forall (λ l, line_allowed (verbose self) l = true) (printed evs).

(** What a history that stopped short of its end still accounts for:
    the last step dispatched may not have started its process, paused or
    been reported, and the last job may lack its header. *)
Definition accounted_upto `{!World} (self : WorkflowRunner) (evs : list event) : Prop :=
  spawns evs `prefix_of` omap (spawn_of self) (steps_dispatched evs) ∧
  (sleeps evs ≤ length (List.filter (λ js, is_action js.2) (steps_dispatched evs)))%nat ∧
  reported_names evs `prefix_of` ((λ js, Step.name js.2) <$> steps_dispatched evs) ∧
  (length (step_outcomes evs) ≤ length (steps_dispatched evs))%nat ∧
  job_headers evs `prefix_of` (Job.name <$> jobs_dispatched evs) ∧
  Forall (λ l, line_allowed (verbose self) l = true) (printed evs).

(** The diagnostic lines a history shows, and the ones its processes
    call for when every line is printed: [str(e)] of a process that
    raised an [Exception], and the captured standard error, stripped,
    when there is some, of one that returned non-zero. *)
Definition diagnostics (evs : list event) : list console_line :=
  omap (λ e, match e with
             | EvPrint (StderrText err) => Some (StderrText err)
             | EvPrint (ErrorText x) => Some (ErrorText x)
             | _ => None
             end) evs.

Definition expected_diagnostics (evs : list event) : list console_line :=
  omap (λ e, match e with
             | EvSubprocess _ _ _ (Raised x) => Some (ErrorText x)
             | EvSubprocess _ _ capture_output (Completed returncode stderr) =>
                 if negb (returncode =? 0) && capture_output && truthy (VStr stderr)
                 then Some (StderrText (strip stderr))
                 else None
             | _ => None
             end) evs.

(** [sum(...)] over a list of numbers. *)
Definition Zsum (l : list Z) : Z := foldr Z.add 0 l.

(** The runner with only the jobs whose id equals [X] left in its
    workflow. *)
Definition only_jobs (self : WorkflowRunner) (X : string) : WorkflowRunner :=
  {| workflow :=
       Workflow.mk (Workflow.name (workflow self)) (Workflow.env (workflow self))
         (List.filter (λ j, py_eq_str (Job.id j) X) (Workflow.jobs (workflow self)));
     verbose := verbose self |}.

(** ** A concrete world, for running the model *)

Module Demo.

(** A clock that advances by one tick per event; a host shell in
    which [exit 1] fails, every other command text succeeds, and
    [subprocess.run] raises [TypeError] when the command or a value of
    [env] is not a [str], as CPython does; a console that prints every
    line, and nobody at the keyboard. *)
Definition world : World := {|
  clock h := Z.of_nat (length h);
  os_environ := {[ "PATH" := "/usr/bin" ]};
  shell h command env capture_output :=
    match command with
    | VStr c =>
        if bool_decide (map_Forall (λ _ v, is_str v = true) env) then
          if String.eqb c "exit 1" then Completed 1 "boom" else Completed 0 ""
        else Raised "expected str, bytes or os.PathLike object, not int"
    | _ => Raised "expected str, bytes or os.PathLike object"
    end;
  console _ _ := None;
  sleep _ := None
|}.

(** The text a line interpolates into the markup it hands to
    [console.print]. *)
Definition line_text (line : console_line) : string :=
  match line with
  | JobHeader v | UsingAction v | WithParams v | Running v => py_str v
  | StderrText s | ErrorText s => s
  | StepSuccess n _ | StepFailure n _ => py_str n
  end.

(** The same world with rich's console, which raises [MarkupError] on
    a text that holds a closing tag without its opening one (here: any
    closing tag), and with a user who presses Ctrl-C while [sleep 60]
    runs, so that [subprocess.run] re-raises [KeyboardInterrupt]; a
    command that lists [/nowhere] fails with that path on standard
    error. *)
Definition rich : World := {|
  clock h := Z.of_nat (length h);
  os_environ := {[ "PATH" := "/usr/bin" ]};
  shell h command env capture_output :=
    match command with
    | VStr c =>
        if bool_decide (map_Forall (λ _ v, is_str v = true) env) then
          if String.eqb c "exit 1" then Completed 1 "boom"
          else if String.eqb c "sleep 60" then Interrupted ""
          else if String.eqb c "ls [/nowhere]"
               then Completed 2 "ls: cannot access '[/nowhere]': No such file or directory"
          else Completed 0 ""
        else Raised "expected str, bytes or os.PathLike object, not int"
    | _ => Raised "expected str, bytes or os.PathLike object"
    end;
  console _ line :=
    if Validator.contains "[/" (line_text line)
    then Some ("closing tag in '" +:+ line_text line +:+ "' doesn't match any open tag")
    else None;
  sleep _ := None
|}.

(** The same world again, with a wall clock that is set back by one
    tick at every event. *)
Definition rewound : World := {|
  clock h := - Z.of_nat (length h);
  os_environ := {[ "PATH" := "/usr/bin" ]};
  shell := @shell world;
  console _ _ := None;
  sleep _ := None
|}.

Definition command_step (c : string) : Step.t :=
  Step.mk (VStr c) VNone (VStr c) ∅ VNone.

Definition job (i : string) (steps : list Step.t) : Job.t :=
  Job.mk (VStr i) (VStr i) (VStr "ubuntu-latest") ∅ steps.

Definition runner (jobs : list Job.t) : WorkflowRunner :=
  {| workflow := Workflow.mk (VStr "W") ∅ jobs; verbose := false |}.

(** A command step whose [env] holds the YAML integer [8080]. *)
Definition port_step : Step.t :=
  Step.mk (VStr "serve") VNone (VStr "make serve") {[ "PORT" := VInt 8080 ]} VNone.

(** A workflow whose only job runs [port_step]. *)
Definition web : WorkflowRunner :=
  {| workflow := Workflow.mk (VStr "W") ∅
                   [Job.mk (VStr "web") (VStr "web") (VStr "ubuntu-latest") ∅ [port_step]];
     verbose := false |}.

(** The example of the specification: job [a] passes, job [b] fails. *)
Definition ab : WorkflowRunner :=
  runner [ job "a" [command_step "exit 0"]; job "b" [command_step "exit 1"; command_step "echo"] ].

(** A passing command under a name that holds a closing tag. *)
Definition tagged_step : Step.t :=
  Step.mk (VStr "clean [/tmp]") VNone (VStr "exit 0") ∅ VNone.

Definition tagged : WorkflowRunner :=
  runner [ job "clean" [tagged_step]; job "build" [command_step "make"] ].

(** A failing command that names [/nowhere] on its standard error. *)
Definition list_step : Step.t :=
  Step.mk (VStr "list") VNone (VStr "ls [/nowhere]") ∅ VNone.

(** A job whose [env] holds the YAML integer [3]. *)
Definition retry_job : Job.t :=
  Job.mk (VStr "test") (VStr "test") (VStr "ubuntu-latest")
    {[ "RETRIES" := VInt 3 ]} [command_step "exit 0"].

Definition retry : WorkflowRunner :=
  {| workflow := Workflow.mk (VStr "W") ∅ [retry_job]; verbose := false |}.

(** Job [lint] fails; job [test] comes after it. *)
Definition lint_test : WorkflowRunner :=
  runner [ job "lint" [command_step "exit 1"]; job "test" [command_step "exit 0"] ].

(** Two jobs under the same id; the first one fails. *)
Definition twins : WorkflowRunner :=
  runner [ job "a" [command_step "exit 1"]; job "a" [command_step "echo ok"] ].

(** A file system with one readable file, [ci.yml], whose text is the
    single line [jobs:]: a mapping whose [jobs] key holds nothing. *)
Definition files : Loader.Files := {|
  Loader.path_exists p := String.eqb (Loader.path_str p) "ci.yml";
  Loader.open_read p :=
    if String.eqb (Loader.path_str p) "ci.yml" then Loader.Opened "jobs:"
    else Loader.OpenFails "No such file or directory";
  Loader.safe_load text :=
    if String.eqb text "jobs:"
    then Loader.Document (Loader.YMap [(Loader.YStr "jobs", Loader.YNull)])
    else Loader.YAMLError "could not parse"
|}.

Definition ci_yml : Loader.WorkflowParser :=
  {| Loader.workflow_path := {| Loader.path_str := "ci.yml"; Loader.stem := "ci" |} |}.

(** A workflow document as [yaml.safe_load] builds it; the key [on] of a
    YAML 1.1 document is the boolean [True]. *)
Definition build_doc : Loader.yaml :=
  Loader.YMap
    [ (Loader.YStr "name", Loader.YStr "CI");
      (Loader.YBool true, Loader.YSeq [Loader.YStr "push"]);
      (Loader.YStr "jobs",
       Loader.YMap
         [ (Loader.YStr "build",
            Loader.YMap
              [ (Loader.YStr "runs-on", Loader.YStr "ubuntu-latest");
                (Loader.YStr "steps",
                 Loader.YSeq
                   [ Loader.YMap [(Loader.YStr "uses", Loader.YStr "actions/checkout@v3")];
                     Loader.YMap [(Loader.YStr "run", Loader.YStr "make")] ]) ]) ]) ].

(** A file system whose one file, [build.yml], holds that document. *)
Definition build_files : Loader.Files := {|
  Loader.path_exists p := String.eqb (Loader.path_str p) "build.yml";
  Loader.open_read p :=
    if String.eqb (Loader.path_str p) "build.yml"
    then Loader.Opened "{name: CI, on: [push], jobs: {build: {runs-on: ubuntu-latest, steps: [{uses: actions/checkout@v3}, {run: make}]}}}"
    else Loader.OpenFails "No such file or directory";
  Loader.safe_load text := Loader.Document build_doc
|}.

Definition build_yml : Loader.Path :=
  {| Loader.path_str := "build.yml"; Loader.stem := "build" |}.

End Demo.

(** ** Python values *)

Example py_str_int : py_str (VInt (-42)) = "-42" ∧ py_str (VInt 8080) = "8080".
Proof. split; reflexivity. Qed.

Example truthy_falsy :
  truthy (VStr "") = false ∧ truthy (VInt 0) = false ∧ truthy VNone = false
  ∧ truthy (VStr "0") = true.
Proof. repeat split. Qed.

(** [str] leaves a string as it is. *)
Lemma py_str_of_str v : is_str v = true → VStr (py_str v) = v.
Proof. by destruct v. Qed.

(** Blanks, line ends and no-break spaces go, at both ends only. *)
Example strip_examples :
  let nl := String (ascii_of_nat 10) "" in
  let nbsp := String (ascii_of_nat 194) (String (ascii_of_nat 160) "") in
  strip ("  boom " +:+ nl) = "boom"
  ∧ strip (nl +:+ nbsp +:+ "a b" +:+ nbsp) = "a b"
  ∧ strip "   " = "" ∧ strip "x" = "x".
Proof. by vm_compute. Qed.

(** ** Facts about histories *)

Lemma jobs_dispatched_app e1 e2 :
  jobs_dispatched (e1 ++ e2) = jobs_dispatched e1 ++ jobs_dispatched e2.
Proof. apply omap_app. Qed.

Lemma steps_dispatched_app e1 e2 :
  steps_dispatched (e1 ++ e2) = steps_dispatched e1 ++ steps_dispatched e2.
Proof. apply omap_app. Qed.

Lemma step_outcomes_app e1 e2 :
  step_outcomes (e1 ++ e2) = step_outcomes e1 ++ step_outcomes e2.
Proof. apply omap_app. Qed.

Lemma all_steps_app js1 js2 : all_steps (js1 ++ js2) = all_steps js1 ++ all_steps js2.
Proof. apply bind_app. Qed.

Lemma all_steps_cons j js : all_steps (j :: js) = (pair j <$> Job.steps j) ++ all_steps js.
Proof. reflexivity. Qed.

Create Rewrite HintDb trace.
#[export] Hint Rewrite jobs_dispatched_app steps_dispatched_app step_outcomes_app
  all_steps_app all_steps_cons : trace.

Lemma ran_all_nil : ran_all [] [].
Proof. by repeat split. Qed.

Lemma ran_all_cons job rest e1 mid :
  jobs_dispatched e1 = [] →
  steps_dispatched e1 = pair job <$> Job.steps job →
  step_outcomes e1 = replicate (length (Job.steps job)) true →
  ran_all rest mid →
  ran_all (job :: rest) (EvRunJob job :: e1 ++ mid).
Proof.
  intros Hj Hs Ho (Hj2 & Hs2 & Ho2). unfold ran_all.
  change (EvRunJob job :: e1 ++ mid) with ([EvRunJob job] ++ e1 ++ mid).
  autorewrite with trace. rewrite Hj, Hj2, Hs, Hs2, Ho, Ho2.
  split_and!; [done..|].
  by rewrite length_app, length_fmap, replicate_add.
Qed.

Lemma stopped_at_cons job rest jpre j jpost spre s spost e1 mid :
  jobs_dispatched e1 = [] →
  steps_dispatched e1 = pair job <$> Job.steps job →
  step_outcomes e1 = replicate (length (Job.steps job)) true →
  stopped_at rest jpre j jpost spre s spost mid →
  stopped_at (job :: rest) (job :: jpre) j jpost spre s spost
    (EvRunJob job :: e1 ++ mid).
Proof.
  intros Hj Hs Ho (-> & Hsteps & Hj2 & Hs2 & Ho2). unfold stopped_at.
  change (EvRunJob job :: e1 ++ mid) with ([EvRunJob job] ++ e1 ++ mid).
  autorewrite with trace. rewrite Hj, Hj2, Hs, Hs2, Ho, Ho2.
  split_and!; try done.
  - simpl. by rewrite (assoc_L (++)).
  - simpl. rewrite length_app, length_fmap, <- Nat.add_assoc.
    by rewrite !replicate_add, <- !(assoc_L (++)).
Qed.

Lemma stopped_at_here job rest pre s post e1 :
  Job.steps job = pre ++ s :: post →
  jobs_dispatched e1 = [] →
  steps_dispatched e1 = pair job <$> pre ++ [s] →
  step_outcomes e1 = replicate (length pre) true ++ [false] →
  stopped_at (job :: rest) [] job rest pre s post (EvRunJob job :: e1).
Proof.
  intros Hsteps Hj Hs Ho. unfold stopped_at.
  change (EvRunJob job :: e1) with ([EvRunJob job] ++ e1).
  autorewrite with trace. rewrite Hj, Hs, Ho. done.
Qed.

Lemma aborted_at_cons job rest e1 mid :
  jobs_dispatched e1 = [] →
  steps_dispatched e1 = pair job <$> Job.steps job →
  step_outcomes e1 = replicate (length (Job.steps job)) true →
  aborted_at rest mid →
  aborted_at (job :: rest) (EvRunJob job :: e1 ++ mid).
Proof.
  intros Hj Hs Ho (jpre & j & jpost & -> & Hj2 & Hcase). unfold aborted_at.
  exists (job :: jpre), j, jpost.
  change (EvRunJob job :: e1 ++ mid) with ([EvRunJob job] ++ e1 ++ mid).
  autorewrite with trace. rewrite Hj, Hj2, Hs, Ho.
  split_and!; [done..|].
  destruct Hcase as [(Hs2 & Ho2) | (spre & s & spost & Hsteps & Hs2 & Ho2)].
  - left. rewrite Hs2, Ho2. split; [done |].
    simpl. by rewrite length_app, length_fmap, replicate_add.
  - right. exists spre, s, spost. rewrite Hs2, Ho2. split_and!; [done | |].
    + simpl. by rewrite (assoc_L (++)).
    + simpl. rewrite length_app, length_fmap, <- Nat.add_assoc.
      by rewrite !replicate_add.
Qed.

Lemma aborted_at_header job rest e1 :
  jobs_dispatched e1 = [] → steps_dispatched e1 = [] → step_outcomes e1 = [] →
  aborted_at (job :: rest) (EvRunJob job :: e1).
Proof.
  intros Hj Hs Ho. exists [], job, rest.
  change (EvRunJob job :: e1) with ([EvRunJob job] ++ e1).
  autorewrite with trace. rewrite Hj, Hs, Ho. split_and!; [done..|]. by left.
Qed.

Lemma aborted_at_step job rest pre s post e1 :
  Job.steps job = pre ++ s :: post →
  jobs_dispatched e1 = [] →
  steps_dispatched e1 = pair job <$> pre ++ [s] →
  step_outcomes e1 = replicate (length pre) true →
  aborted_at (job :: rest) (EvRunJob job :: e1).
Proof.
  intros Hsteps Hj Hs Ho. exists [], job, rest.
  change (EvRunJob job :: e1) with ([EvRunJob job] ++ e1).
  autorewrite with trace. rewrite Hj, Hs, Ho. split_and!; [done..|].
  right. by exists pre, s, post.
Qed.

Lemma between_readings t0 t1 mid :
  jobs_dispatched (EvTime t0 :: mid ++ [EvTime t1]) = jobs_dispatched mid ∧
  steps_dispatched (EvTime t0 :: mid ++ [EvTime t1]) = steps_dispatched mid ∧
  step_outcomes (EvTime t0 :: mid ++ [EvTime t1]) = step_outcomes mid.
Proof.
  change (EvTime t0 :: mid ++ [EvTime t1]) with ([EvTime t0] ++ mid ++ [EvTime t1]).
  autorewrite with trace. simpl. by rewrite !app_nil_r.
Qed.

Lemma after_reading t0 mid :
  jobs_dispatched (EvTime t0 :: mid) = jobs_dispatched mid ∧
  steps_dispatched (EvTime t0 :: mid) = steps_dispatched mid ∧
  step_outcomes (EvTime t0 :: mid) = step_outcomes mid.
Proof. done. Qed.

(** What the two endings of the loop and a cut-short run make of the
    history between the readings. *)
Lemma ran_all_between jobs t0 t1 mid :
  ran_all jobs mid → ran_all jobs (EvTime t0 :: mid ++ [EvTime t1]).
Proof.
  unfold ran_all. destruct (between_readings t0 t1 mid) as (-> & -> & ->). done.
Qed.

Lemma stopped_at_between jobs jpre j jpost spre s spost t0 t1 mid :
  stopped_at jobs jpre j jpost spre s spost mid →
  stopped_at jobs jpre j jpost spre s spost (EvTime t0 :: mid ++ [EvTime t1]).
Proof.
  unfold stopped_at. destruct (between_readings t0 t1 mid) as (-> & -> & ->). done.
Qed.

Lemma loop_end_between jobs r t0 t1 mid :
  loop_end jobs r mid → loop_end jobs r (EvTime t0 :: mid ++ [EvTime t1]).
Proof.
  intros [(? & ? & Hall) | (jpre & j & jpost & spre & s & spost & ? & ? & Hstop)].
  - left. split_and!; [done..|]. by apply ran_all_between.
  - right. exists jpre, j, jpost, spre, s, spost.
    split_and!; [done..|]. by apply stopped_at_between.
Qed.

Lemma filter_nil_iff {A} (f : A → bool) (l : list A) :
  List.filter f l = [] ↔ ∀ x, x ∈ l → f x = false.
Proof.
  induction l as [| a l IH]; simpl.
  - split; [intros _ x Hx; by apply elem_of_nil in Hx | done].
  - destruct (f a) eqn:Hfa.
    + split; [done |]. intros Hall.
      specialize (Hall a (list_elem_of_here a l)). congruence.
    + rewrite IH. split.
      * intros Hall x Hx. apply elem_of_cons in Hx as [-> | Hx]; auto.
      * intros Hall x Hx. apply Hall. by apply list_elem_of_further.
Qed.

Lemma truthy_str x : truthy (VStr x) = true ↔ x ≠ "".
Proof. destruct x; simpl; split; (done || congruence). Qed.

(** A failure message of the job loop is never the message for an empty
    filter that matched nothing. *)
Lemma failed_is_not_not_found (i : string) :
  "Job '" +:+ i +:+ "' failed" ≠ "Job '' not found".
Proof.
  simpl. intros Heq. injection Heq as Heq.
  do 12 (destruct i as [| ? i]; simpl in Heq;
         [discriminate Heq | try (injection Heq as _ Heq)]).
  discriminate Heq.
Qed.

Lemma elem_of_all_steps j s jobs :
  (j, s) ∈ all_steps jobs → j ∈ jobs ∧ s ∈ Job.steps j.
Proof.
  unfold all_steps. rewrite list_elem_of_bind.
  intros (j' & Hin & Hj'). apply list_elem_of_fmap in Hin as (s' & [= -> ->] & Hs').
  done.
Qed.

Lemma elem_of_filter {A} (f : A → bool) (l : list A) x :
  x ∈ List.filter f l ↔ x ∈ l ∧ f x = true.
Proof. rewrite !list_elem_of_In. apply filter_In. Qed.

(** The ways a loop can end leave a prefix of what there was to
    dispatch. *)
Lemma ran_all_prefix jobs evs :
  ran_all jobs evs →
  jobs_dispatched evs `prefix_of` jobs ∧ steps_dispatched evs `prefix_of` all_steps jobs.
Proof. intros (-> & -> & _). done. Qed.

Lemma stopped_at_prefix jobs jpre j jpost spre s spost evs :
  stopped_at jobs jpre j jpost spre s spost evs →
  jobs_dispatched evs `prefix_of` jobs ∧ steps_dispatched evs `prefix_of` all_steps jobs.
Proof.
  intros (-> & Hsteps & -> & -> & _). split.
  - exists jpost. by rewrite <- (assoc_L (++)).
  - autorewrite with trace. rewrite Hsteps. apply prefix_app.
    exists ((pair j <$> spost) ++ all_steps jpost).
    rewrite !fmap_app. simpl. by rewrite <- !(assoc_L (++)).
Qed.

Lemma aborted_at_prefix jobs evs :
  aborted_at jobs evs →
  jobs_dispatched evs `prefix_of` jobs ∧ steps_dispatched evs `prefix_of` all_steps jobs
  ∧ false ∉ step_outcomes evs.
Proof.
  intros (jpre & j & jpost & -> & -> & Hcase). split_and!.
  - exists jpost. by rewrite <- (assoc_L (++)).
  - autorewrite with trace.
    destruct Hcase as [(-> & _) | (spre & s & spost & Hsteps & -> & _)].
    + by apply prefix_app_r.
    + rewrite Hsteps. apply prefix_app.
      exists ((pair j <$> spost) ++ all_steps jpost).
      rewrite !fmap_app. simpl. by rewrite <- !(assoc_L (++)).
  - destruct Hcase as [(_ & ->) | (spre & s & spost & _ & _ & ->)];
      by intros [? _]%elem_of_replicate.
Qed.

(** ** Reasoning about computations *)

Lemma post_ret {A} (a : A) h (Q : A → list event → Prop) E :
  Q a [] → post (mret a) h Q E.
Proof. done. Qed.

Lemma post_emit e h (Q : unit → list event → Prop) E :
  Q tt [e] → post (emit e) h Q E.
Proof. done. Qed.

Lemma post_bind {A B} (m : M A) (f : A → M B) h (Q : B → list event → Prop) E :
  post m h
    (λ a e1, post (f a) (h ++ e1) (λ b e2, Q b (e1 ++ e2)) (λ x e2, E x (e1 ++ e2)))
    E →
  post (m ≫= f) h Q E.
Proof.
  unfold post, mbind, M_bind. destruct (m h) as [[a | x] e1]; [| done].
  by destruct (f a (h ++ e1)) as [[b | y] e2].
Qed.

Lemma post_try {A} (m : M A) (handler : string → M A) h
    (Q : A → list event → Prop) E :
  post m h Q
    (λ x e1, if is_Exception x
             then post (handler (exn_str x)) (h ++ e1)
                    (λ b e2, Q b (e1 ++ e2)) (λ y e2, E y (e1 ++ e2))
             else E x e1) →
  post (try_except m handler) h Q E.
Proof.
  unfold post, try_except. destruct (m h) as [[a | x] e1]; [done |].
  destruct (is_Exception x); [| done].
  by destruct (handler (exn_str x) (h ++ e1)) as [[b | y] e2].
Qed.

Lemma post_mono {A} (m : M A) h (Q Q' : A → list event → Prop)
    (E E' : exn → list event → Prop) :
  (∀ a evs, Q a evs → Q' a evs) → (∀ x evs, E x evs → E' x evs) →
  post m h Q E → post m h Q' E'.
Proof. unfold post. destruct (m h) as [[a | x] evs]; auto. Qed.

Lemma post_and {A} (m : M A) h (Q Q' : A → list event → Prop)
    (E E' : exn → list event → Prop) :
  post m h Q E → post m h Q' E' →
  post m h (λ a evs, Q a evs ∧ Q' a evs) (λ x evs, E x evs ∧ E' x evs).
Proof. unfold post. destruct (m h) as [[a | x] evs]; auto. Qed.

(** What [post] says of the outcome and of the events of a run. *)
Lemma post_ret_inv {A} (m : M A) h Q E a :
  post m h Q E → (m h).1 = Ret a → Q a (m h).2.
Proof. unfold post. destruct (m h) as [[a' | x] evs]; simpl; congruence. Qed.

Lemma post_raise_inv {A} (m : M A) h Q E x :
  post m h Q E → (m h).1 = Raise x → E x (m h).2.
Proof. unfold post. destruct (m h) as [[a' | x'] evs]; simpl; congruence. Qed.

Lemma post_events {A} (m : M A) h (P : list event → Prop) :
  post m h (λ _, P) (λ _, P) → P (m h).2.
Proof. unfold post. by destruct (m h) as [[a | x] evs]. Qed.

Lemma post_returns {A} (m : M A) h Q :
  post m h Q (λ _ _, False) → ∃ a, (m h).1 = Ret a.
Proof. unfold post. destruct (m h) as [[a | x] evs]; [eauto | done]. Qed.

(** Lists of events are compared with [++] nested to the right. *)
Ltac norm_app :=
  repeat progress (simpl in *; rewrite <- ?(assoc_L (++)) in * ).

(** Unfolds a step down to the oracles and splits on every answer. *)
Ltac run_step_cases :=
  unfold post, _run_step, _run_action, _run_command, try_except,
    subprocess_run, time_time, time_sleep, console_print, emit,
    mbind, M_bind, mret, M_mret;
  repeat (case_match; simplify_eq/=).

Section RunnerFacts.

Context `{!World}.
Variable self : WorkflowRunner.

Lemma post_time h (Q : Z → list event → Prop) E :
  Q (clock h) [EvTime (clock h)] → post time_time h Q E.
Proof. done. Qed.

Lemma post_print line h (Q : unit → list event → Prop) E :
  (console h line = None → Q tt [EvPrint line]) →
  (∀ e, console h line = Some e → E (ConsoleError e) []) →
  post (console_print line) h Q E.
Proof.
  intros HQ HE. unfold post, console_print.
  destruct (console h line) as [e |]; auto.
Qed.

(** A dispatched step that returns has reported its own outcome once;
    one that raises has reported nothing.  Neither dispatches anything
    itself. *)
Lemma _run_step_post step env h :
  post (_run_step self step env) h
    (λ b evs, jobs_dispatched evs = [] ∧ steps_dispatched evs = [] ∧
              step_outcomes evs = [b])
    (λ x evs, jobs_dispatched evs = [] ∧ steps_dispatched evs = [] ∧
              step_outcomes evs = []).
Proof. run_step_cases; done. Qed.

Lemma for_steps_post job env steps h :
  post (for_steps self job env steps) h
    (λ b evs,
      jobs_dispatched evs = [] ∧
      ((b = true ∧ steps_dispatched evs = pair job <$> steps ∧
        step_outcomes evs = replicate (length steps) true)
       ∨ (b = false ∧ ∃ pre s post,
            steps = pre ++ s :: post ∧
            steps_dispatched evs = pair job <$> pre ++ [s] ∧
            step_outcomes evs = replicate (length pre) true ++ [false])))
    (λ x evs,
      jobs_dispatched evs = [] ∧
      ∃ pre s post,
        steps = pre ++ s :: post ∧
        steps_dispatched evs = pair job <$> pre ++ [s] ∧
        step_outcomes evs = replicate (length pre) true).
Proof.
  revert h. induction steps as [| step rest IH]; intros h; simpl.
  - apply post_ret. auto.
  - apply post_bind, post_emit, post_bind.
    eapply post_mono; [| | apply _run_step_post].
    + intros b e1 (Hj & Hs & Ho). destruct b; simpl.
      * eapply post_mono; [| | apply IH].
        -- intros b e2 (Hj2 & Hcase). autorewrite with trace.
           rewrite Hj, Hj2, Hs, Ho. split; [done |].
           destruct Hcase as [(-> & Hs2 & Ho2) | (-> & pre & s & post & -> & Hs2 & Ho2)].
           ++ left. rewrite Hs2, Ho2. done.
           ++ right. split; [done |]. exists (step :: pre), s, post.
              rewrite Hs2, Ho2. done.
        -- intros x e2 (Hj2 & pre & s & post & -> & Hs2 & Ho2).
           autorewrite with trace. rewrite Hj, Hj2, Hs, Ho. split; [done |].
           exists (step :: pre), s, post. rewrite Hs2, Ho2. done.
      * apply post_ret. autorewrite with trace.
        rewrite Hj, Hs, Ho. split; [done |].
        right. split; [done |]. exists [], step, rest. done.
    + intros x e1 (Hj & Hs & Ho). autorewrite with trace.
      rewrite Hj, Hs, Ho. split; [done |]. exists [], step, rest. done.
Qed.

Lemma _run_job_post job h :
  post (_run_job self job) h
    (λ b evs,
      jobs_dispatched evs = [] ∧
      ((b = true ∧ steps_dispatched evs = pair job <$> Job.steps job ∧
        step_outcomes evs = replicate (length (Job.steps job)) true)
       ∨ (b = false ∧ ∃ pre s post,
            Job.steps job = pre ++ s :: post ∧
            steps_dispatched evs = pair job <$> pre ++ [s] ∧
            step_outcomes evs = replicate (length pre) true ++ [false])))
    (λ x evs,
      jobs_dispatched evs = [] ∧
      ((steps_dispatched evs = [] ∧ step_outcomes evs = [])
       ∨ ∃ pre s post,
           Job.steps job = pre ++ s :: post ∧
           steps_dispatched evs = pair job <$> pre ++ [s] ∧
           step_outcomes evs = replicate (length pre) true)).
Proof.
  unfold _run_job. apply post_bind, post_print.
  - intros _. eapply post_mono; [| | apply for_steps_post].
    + intros b evs Hspec. exact Hspec.
    + intros x evs (Hj & Hcase). split; [exact Hj |]. right. exact Hcase.
  - intros e _. split; [done |]. by left.
Qed.

Lemma for_jobs_post start_time jobs h :
  post (for_jobs self start_time jobs) h
    (λ r evs,
      ∃ mid, evs = mid ++ [EvTime (clock (h ++ mid))] ∧
        total_time r = clock (h ++ mid) - start_time ∧
        loop_end jobs r mid)
    (λ x evs, aborted_at jobs evs).
Proof.
  revert h. induction jobs as [| job rest IH]; intros h; simpl.
  - apply post_bind, post_time, post_ret.
    exists []. rewrite !app_nil_r. split_and!; [done..|].
    left. split_and!; [done..|]. apply ran_all_nil.
  - apply post_bind, post_emit, post_bind.
    eapply post_mono; [| | apply _run_job_post].
    + intros b e1 (Hj & Hcase).
      destruct Hcase as [(-> & Hs & Ho) | (-> & pre & s & post & Hsteps & Hs & Ho)];
        simpl.
      * eapply post_mono; [| | apply IH].
        -- intros r e2 (mid & -> & Ht & Hend).
           exists (EvRunJob job :: e1 ++ mid).
           norm_app. split_and!; [done..|].
           destruct Hend as [(Hok & Herr & Hall)
                            | (jpre & j & jpost & spre & s & spost & Hok & Herr & Hstop)].
           ++ left. split_and!; [done..|]. by apply ran_all_cons.
           ++ right. exists (job :: jpre), j, jpost, spre, s, spost.
              split_and!; [done..|]. by apply stopped_at_cons.
        -- intros x e2 Hab. by apply aborted_at_cons.
      * apply post_bind, post_time, post_ret.
        exists (EvRunJob job :: e1).
        rewrite !app_nil_r. norm_app. split_and!; [done..|].
        right. exists [], job, rest, pre, s, post.
        split_and!; [done..|]. by apply stopped_at_here.
    + intros x e1 (Hj & [(Hs & Ho) | (pre & s & post & Hsteps & Hs & Ho)]).
      * by apply aborted_at_header.
      * by eapply aborted_at_step.
Qed.

(** [run] either stops at an empty filtered list, or goes through the
    loop between two readings of the clock, or is cut short inside the
    loop by an exception. *)
Lemma run_post job_filter h :
  post (run self job_filter) h
    (λ r evs,
      (∃ x, job_filter = Some x ∧ truthy (VStr x) = true ∧
            jobs_to_run self job_filter = [] ∧
            r = not_found x ∧ evs = [EvTime (clock h)])
      ∨ (jobs_to_run self job_filter ≠ [] ∨ job_filter = None
         ∨ job_filter = Some "") ∧
        ∃ mid t1,
          evs = EvTime (clock h) :: mid ++ [EvTime t1] ∧
          t1 = clock (h ++ EvTime (clock h) :: mid) ∧
          total_time r = t1 - clock h ∧
          loop_end (jobs_to_run self job_filter) r mid)
    (λ x evs,
      ∃ mid, evs = EvTime (clock h) :: mid ∧
             aborted_at (jobs_to_run self job_filter) mid).
Proof.
  unfold run, jobs_to_run. apply post_bind, post_time.
  assert (Hloop : ∀ jobs, post (for_jobs self (clock h) jobs)
            (h ++ [EvTime (clock h)])
            (λ r e2,
              ∃ mid t1, [EvTime (clock h)] ++ e2
                          = EvTime (clock h) :: mid ++ [EvTime t1] ∧
                t1 = clock (h ++ EvTime (clock h) :: mid) ∧
                total_time r = t1 - clock h ∧ loop_end jobs r mid)
            (λ x e2,
              ∃ mid, [EvTime (clock h)] ++ e2 = EvTime (clock h) :: mid ∧
                     aborted_at jobs mid)).
  { intros jobs. eapply post_mono; [| | apply for_jobs_post].
    - intros r e2 (mid & -> & Ht & Hend). norm_app. eauto 10.
    - intros x e2 Hab. by exists e2. }
  destruct job_filter as [x |].
  - destruct (truthy (VStr x)) eqn:Hx.
    + destruct (List.filter _ _) as [| j0 js] eqn:Hsel.
      * apply post_ret. left. exists x. done.
      * eapply post_mono; [| | apply Hloop].
        -- intros r e2 Hspec. right. split; [by left | exact Hspec].
        -- intros y e2 Hspec. exact Hspec.
    + eapply post_mono; [| | apply Hloop].
      * intros r e2 Hspec. right. split; [| exact Hspec]. right; right.
        destruct x; [done | discriminate Hx].
      * intros y e2 Hspec. exact Hspec.
  - eapply post_mono; [| | apply Hloop].
    + intros r e2 Hspec. right. split; [by right; left | exact Hspec].
    + intros y e2 Hspec. exact Hspec.
Qed.

(** The same, as the three cases of a run. *)
Lemma run_cases job_filter h :
  (∃ x, job_filter = Some x ∧ truthy (VStr x) = true ∧
        jobs_to_run self job_filter = [] ∧
        run self job_filter h = (Ret (not_found x), [EvTime (clock h)]))
  ∨ (∃ r mid t1,
       (jobs_to_run self job_filter ≠ [] ∨ job_filter = None
        ∨ job_filter = Some "") ∧
       run self job_filter h = (Ret r, EvTime (clock h) :: mid ++ [EvTime t1]) ∧
       t1 = clock (h ++ EvTime (clock h) :: mid) ∧
       total_time r = t1 - clock h ∧
       loop_end (jobs_to_run self job_filter) r mid)
  ∨ (∃ x mid,
       run self job_filter h = (Raise x, EvTime (clock h) :: mid) ∧
       aborted_at (jobs_to_run self job_filter) mid).
Proof.
  assert (Hpost := run_post job_filter h). unfold post in Hpost.
  destruct (run self job_filter h) as [[r | x] evs].
  - destruct Hpost as [(y & ? & ? & ? & -> & ->) | (? & mid & t1 & -> & ? & ? & ?)].
    + left. by exists y.
    + right; left. by exists r, mid, t1.
  - destruct Hpost as (mid & -> & Hab). right; right. by exists x, mid.
Qed.

End RunnerFacts.

Section StepFacts.

Context `{!World}.
Variable self : WorkflowRunner.

(** What one dispatched step does, by its branch and by what the host
    shell answers to its call of [subprocess.run]. *)
Lemma _run_step_dispatch step env h :
  post (_run_step self step env) h
    (λ b evs,
      (b = true ↔
         is_action step = true
         ∨ (truthy (Step.uses step) = false ∧ truthy (Step.run step) = false)
         ∨ (is_command step = true
            ∧ ∃ stderr, shell_answer self env step h = Completed 0 stderr))
      ∧ (is_command step = true →
           spawns evs = [(Step.run step, passed_env env step, negb (verbose self))]
           ∧ EvSubprocess (Step.run step) (passed_env env step) (negb (verbose self))
               (shell_answer self env step h) ∈ evs)
      ∧ (is_command step = false → spawns evs = [])
      ∧ (∀ e, shell_answer self env step h = Interrupted e →
              is_command step = false))
    (λ x evs,
      (∃ e, x = ConsoleError e)
      ∨ (∃ e, x = Interrupt e ∧ is_command step = true
              ∧ shell_answer self env step h = Interrupted e)
      ∨ (∃ e h', x = Interrupt e ∧ is_action step = true ∧ sleep h' = Some e)).
Proof.
  unfold shell_answer, call_history, passed_env, is_command, is_action.
  run_step_cases.
  all: try match goal with H : (_ =? 0) = true |- _ => apply Z.eqb_eq in H end.
  all: try match goal with H : (_ =? 0) = false |- _ => apply Z.eqb_neq in H end.
  all: repeat match goal with
              | H : console _ _ = _ |- _ => clear H
              | H : sleep _ = None |- _ => clear H
              | H : shell _ _ _ _ = _ |- _ => rewrite H; clear H
              end.
  all: subst;
    first [ by eauto 10
          | split_and!; intros; try done; eauto 10; set_unfold; naive_solver ].
Qed.

(** One dispatched step: at most one process, one pause for an action,
    one report under the step's name when it returns, and only lines the
    [verbose] flag allows. *)
Lemma _run_step_effects step env h :
  post (_run_step self step env) h
    (λ b evs,
      jobs_dispatched evs = [] ∧ steps_dispatched evs = [] ∧
      step_outcomes evs = [b] ∧
      spawns evs = option_list (spawn_with self env step) ∧
      sleeps evs = (if is_action step then 1 else 0)%nat ∧
      reported_names evs = [Step.name step] ∧
      job_headers evs = [] ∧
      Forall (λ l, line_allowed (verbose self) l = true) (printed evs) ∧
      (is_action step = true → b = true))
    (λ x evs,
      jobs_dispatched evs = [] ∧ steps_dispatched evs = [] ∧
      step_outcomes evs = [] ∧
      spawns evs `prefix_of` option_list (spawn_with self env step) ∧
      (sleeps evs ≤ (if is_action step then 1 else 0))%nat ∧
      reported_names evs = [] ∧
      job_headers evs = [] ∧
      Forall (λ l, line_allowed (verbose self) l = true) (printed evs)).
Proof.
  unfold spawn_with, is_command, is_action.
  run_step_cases.
  all: split_and!; try done; repeat constructor.
  all: first [ apply prefix_nil | reflexivity ].
Qed.

(** A call of [subprocess.run] that raised an [Exception] is never
    followed by a success, and the exception itself goes no further. *)
Lemma _run_step_contained step env h :
  post (_run_step self step env) h
    (λ b evs, ∀ c e cap x, EvSubprocess c e cap (Raised x) ∈ evs → b = false)
    (λ y evs,
      (∀ x, y ≠ ProcessError x)
      ∧ (∀ c e cap x, EvSubprocess c e cap (Raised x) ∈ evs →
                      ∃ e', y = ConsoleError e')).
Proof.
  run_step_cases.
  all: first [ done | split; [done |] | idtac ].
  all: intros ? ? ? ? Hraised; apply list_elem_of_In in Hraised; simpl in Hraised.
  all: repeat destruct Hraised as [Hraised | Hraised]; try done; eauto.
Qed.

(** With a console that prints every line, a step is stopped by nothing
    but an interrupt, and reports the exception of a call that raised. *)
Lemma _run_step_calm step env h :
  console_accepts →
  post (_run_step self step env) h
    (λ b evs,
      is_command step = true → ∀ x,
      shell_answer self env step h = Raised x →
      b = false ∧ EvPrint (ErrorText x) ∈ evs)
    (λ y evs,
      ∃ e, y = Interrupt e
           ∧ ((is_command step = true ∧ shell_answer self env step h = Interrupted e)
              ∨ (is_action step = true ∧ ∃ h', sleep h' = Some e))).
Proof.
  intros Hc. unfold shell_answer, call_history, passed_env, is_command, is_action.
  run_step_cases.
  all: repeat match goal with
              | H : console _ _ = Some _ |- _ => by rewrite Hc in H
              | H : console _ _ = None |- _ => clear H
              | H : sleep _ = None |- _ => clear H
              | H : shell _ _ _ _ = _ |- _ => rewrite H; clear H
              end.
  all: subst; intros; try done.
  all: first [ by eexists; split; [| left]
             | by eexists; split; [| right; split; [| eexists]]
             | simplify_eq; split; [done | set_unfold; tauto] ].
Qed.

Lemma _run_step_returns step env h :
  console_accepts → uninterrupted →
  ∃ b, (_run_step self step env h).1 = Ret b.
Proof.
  intros Hc [Hshell Hsleep].
  eapply post_returns, post_mono; [| | apply (_run_step_calm step env h Hc)].
  - intros b evs Hb. exact Hb.
  - intros y evs (e & _ & [[_ He] | [_ [h' He]]]).
    + by apply Hshell in He.
    + by rewrite Hsleep in He.
Qed.

(** ** Properties of every history *)

(** A property [Q] of histories that holds of the empty history and of
    a reading of the clock, is kept by [++], and holds of what a job
    header and a dispatched step emit when they return, holds of what
    [run] emits when it returns.  If, moreover, [E] holds of what they
    emit when they raise, and appending on the left keeps it, then [E]
    holds of what [run] emits when it raises. *)
Section RunnerTrace.

Variable Q : list event → Prop.
Variable E : exn → list event → Prop.
Hypothesis Q_nil : Q [].
Hypothesis Q_app : ∀ e1 e2, Q e1 → Q e2 → Q (e1 ++ e2).
Hypothesis E_app : ∀ x e1 e2, Q e1 → E x e2 → E x (e1 ++ e2).
Hypothesis Q_time : ∀ t, Q [EvTime t].
Hypothesis header : ∀ job h,
  post (console_print (JobHeader (Job.name job))) h
    (λ _ evs, Q ([EvRunJob job] ++ evs)) (λ x evs, E x ([EvRunJob job] ++ evs)).
Hypothesis dispatched : ∀ job step h,
  post (_run_step self step (_build_environment self job)) h
    (λ _ evs, Q ([EvRunStep job step] ++ evs))
    (λ x evs, E x ([EvRunStep job step] ++ evs)).

Lemma for_steps_trace job steps h :
  post (for_steps self job (_build_environment self job) steps) h (λ _, Q) E.
Proof.
  revert h. induction steps as [| step rest IH]; intros h; simpl.
  - by apply post_ret.
  - apply post_bind, post_emit, post_bind.
    eapply post_mono; [| | apply (dispatched job step)].
    + intros b e1 He1. destruct b; cbn [negb].
      * eapply post_mono; [| | apply IH].
        -- intros b e2 He2. cbv beta. rewrite (assoc_L (++)). by apply Q_app.
        -- intros x e2 He2. cbv beta. rewrite (assoc_L (++)). by apply E_app.
      * apply post_ret. by rewrite app_nil_r.
    + intros x e1 He1. exact He1.
Qed.

Lemma _run_job_trace job h :
  post (_run_job self job) h
    (λ _ evs, Q ([EvRunJob job] ++ evs)) (λ x evs, E x ([EvRunJob job] ++ evs)).
Proof.
  unfold _run_job. apply post_bind.
  eapply post_mono; [| | apply (header job)].
  - intros [] e1 He1. eapply post_mono; [| | apply for_steps_trace].
    + intros b e2 He2. cbv beta. rewrite (assoc_L (++)). by apply Q_app.
    + intros x e2 He2. cbv beta. rewrite (assoc_L (++)). by apply E_app.
  - intros x e1 He1. exact He1.
Qed.

Lemma for_jobs_trace start_time jobs h :
  post (for_jobs self start_time jobs) h (λ _, Q) E.
Proof.
  revert h. induction jobs as [| job rest IH]; intros h; simpl.
  - apply post_bind, post_time, post_ret. rewrite app_nil_r. apply Q_time.
  - apply post_bind, post_emit, post_bind.
    eapply post_mono; [| | apply _run_job_trace].
    + intros b e1 He1. destruct b; cbn [negb].
      * eapply post_mono; [| | apply IH].
        -- intros r e2 He2. cbv beta. rewrite (assoc_L (++)). by apply Q_app.
        -- intros x e2 He2. cbv beta. rewrite (assoc_L (++)). by apply E_app.
      * apply post_bind, post_time, post_ret.
        rewrite app_nil_r, (assoc_L (++)). apply Q_app; [exact He1 | apply Q_time].
    + intros x e1 He1. exact He1.
Qed.

Lemma run_trace job_filter h :
  post (run self job_filter) h (λ _, Q) E.
Proof.
  unfold run. apply post_bind, post_time.
  assert (Hloop : ∀ jobs,
            post (for_jobs self (clock h) jobs) (h ++ [EvTime (clock h)])
              (λ _ e2, Q ([EvTime (clock h)] ++ e2))
              (λ x e2, E x ([EvTime (clock h)] ++ e2))).
  { intros jobs. eapply post_mono; [| | apply for_jobs_trace].
    - intros r e2 He2. apply Q_app; [apply Q_time | exact He2].
    - intros x e2 He2. apply E_app; [apply Q_time | exact He2]. }
  destruct job_filter as [x |]; [| apply Hloop].
  destruct (truthy (VStr x)); [| apply Hloop].
  destruct (List.filter _ _) as [| j0 js]; [| apply Hloop].
  apply post_ret. rewrite app_nil_r. apply Q_time.
Qed.

End RunnerTrace.

(** An [Exception] out of [subprocess.run] never leaves [run]. *)
Lemma run_contained job_filter h x :
  (run self job_filter h).1 ≠ Raise (ProcessError x).
Proof.
  intros Hrun.
  assert (Hpost : post (run self job_filter) h
                    (λ _ _, True) (λ y _, ∀ x, y ≠ ProcessError x)).
  { apply (run_trace (λ _, True) (λ y _, ∀ x, y ≠ ProcessError x)); try done.
    - intros job h0. by apply post_print.
    - intros job step h0.
      eapply post_mono; [| | apply _run_step_contained]; [done |].
      by intros y evs [Hy _]. }
  by apply (post_raise_inv _ _ _ _ _ Hpost Hrun x).
Qed.

(** With a console that prints every line and no interrupt, [run]
    returns. *)
Lemma run_returns job_filter h :
  console_accepts → uninterrupted →
  ∃ r, (run self job_filter h).1 = Ret r.
Proof.
  intros Hc [Hshell Hsleep]. eapply post_returns.
  apply (run_trace (λ _, True) (λ _ _, False)); try done.
  - intros job h0. apply post_print; [done |]. intros e He. by rewrite Hc in He.
  - intros job step h0.
    eapply post_mono; [| | apply (_run_step_calm step _ h0 Hc)]; [done |].
    intros y evs (e & _ & [[_ He] | [_ [h' He]]]).
    + by apply Hshell in He.
    + by rewrite Hsleep in He.
Qed.

End StepFacts.

(** The examples below run in the world of [Demo]. *)
#[local] Existing Instance Demo.world.
#[local] Existing Instance Demo.files.

(** ** Fail-fast execution *)



(** ** The filter *)

(** C3.  With a non-empty filter that no job id equals, [run] returns
    the not-found result with [total_time = 0]; the only thing it did
    was to read the clock once: no job and no step is dispatched. *)
Theorem run_filter_not_found `{!World} (self : WorkflowRunner)
    (X : string) (h : list event) :
  X ≠ "" →
  (∀ j, j ∈ Workflow.jobs (workflow self) → py_eq_str (Job.id j) X = false) →
  run self (Some X) h
    = (Ret {| success := false;
              error := Some ("Job '" +:+ X +:+ "' not found");
              total_time := 0 |},
       [EvTime (clock h)])
  ∧ jobs_dispatched (run self (Some X) h).2 = []
  ∧ steps_dispatched (run self (Some X) h).2 = [].
Proof.
  intros HX Hnone.
  assert (Hrun : run self (Some X) h = (Ret (not_found X), [EvTime (clock h)])).
  { unfold run, mbind, M_bind, time_time.
    apply truthy_str in HX. rewrite HX.
    apply filter_nil_iff in Hnone. rewrite Hnone. reflexivity. }
  rewrite Hrun. done.
Qed.

Lemma run_filter_not_found_witness :
  run Demo.ab (Some "deploy") []
    = (Ret {| success := false;
              error := Some "Job 'deploy' not found";
              total_time := 0 |},
       [EvTime 0])
  ∧ jobs_dispatched (run Demo.ab (Some "deploy") []).2 = []
  ∧ steps_dispatched (run Demo.ab (Some "deploy") []).2 = [].
Proof.
  refine (run_filter_not_found Demo.ab "deploy" [] _ _).
  - discriminate.
  - intros j Hj. apply list_elem_of_In in Hj. simpl in Hj.
    destruct Hj as [<- | [<- | []]]; reflexivity.
Defined.

(** What [run] leaves of the jobs it was to run, whatever its outcome:
    a prefix, dispatched in declared order. *)
Lemma run_dispatches_prefix `{!World} (self : WorkflowRunner)
    (job_filter : option string) (h : list event) :
  jobs_dispatched (run self job_filter h).2 `prefix_of` jobs_to_run self job_filter
  ∧ steps_dispatched (run self job_filter h).2
      `prefix_of` all_steps (jobs_to_run self job_filter).
Proof.
  destruct (run_cases self job_filter h)
    as [(x & _ & _ & _ & Hrun)
       | [(r & mid & t1 & _ & Hrun & _ & Ht & Hend) | (x & mid & Hrun & Hab)]];
    rewrite Hrun; simpl.
  - split; apply prefix_nil.
  - destruct (between_readings (clock h) t1 mid) as (Ej & Es & _).
    change (jobs_dispatched (EvTime (clock h) :: mid ++ [EvTime t1])
              `prefix_of` jobs_to_run self job_filter
            ∧ steps_dispatched (EvTime (clock h) :: mid ++ [EvTime t1])
              `prefix_of` all_steps (jobs_to_run self job_filter)).
    rewrite Ej, Es.
    destruct Hend as [(_ & _ & Hall) | (jpre & j & jpost & spre & s & spost & _ & _ & Hstop)].
    + by apply ran_all_prefix.
    + by eapply stopped_at_prefix.
  - apply aborted_at_prefix in Hab as (? & ? & _). done.
Qed.

(** When [run] goes through the job loop and returns, the whole
    history shows how the loop ended. *)
Lemma run_loop_end `{!World} (self : WorkflowRunner)
    (job_filter : option string) (h : list event) r :
  (run self job_filter h).1 = Ret r →
  jobs_to_run self job_filter ≠ [] ∨ job_filter = None ∨ job_filter = Some "" →
  loop_end (jobs_to_run self job_filter) r (run self job_filter h).2
  ∧ head (run self job_filter h).2 = Some (EvTime (clock h))
  ∧ ∃ t1, last (run self job_filter h).2 = Some (EvTime t1)
          ∧ total_time r = t1 - clock h.
Proof.
  intros Hret Hsel.
  destruct (run_cases self job_filter h)
    as [(x & -> & Hx & Hnil & Hrun)
       | [(r' & mid & t1 & _ & Hrun & _ & Ht & Hend) | (x & mid & Hrun & Hab)]];
    rewrite Hrun in Hret |- *; simpl in Hret.
  - exfalso. destruct Hsel as [? | [? | [= ->]]]; done.
  - injection Hret as ->. simpl. split_and!; [| done |].
    + by apply loop_end_between.
    + exists t1. split; [| done]. by rewrite app_comm_cons, last_snoc.
  - discriminate Hret.
Qed.




(** ** The run result *)

(** C8 as stated fails: [total_time] is the difference of two readings
    of the wall clock, and is negative when the clock was set back in
    between. *)
Lemma total_time_counterexample :
  (@run Demo.rewound Demo.ab None []).1
  = Ret {| success := false; error := Some "Job 'b' failed"; total_time := -16 |}
  ∧ total_time {| success := false; error := Some "Job 'b' failed"; total_time := -16 |} < 0.
Proof. split; [by vm_compute | done]. Qed.

(** C8, amended.  Every result [run] returns has its [error] key
    present exactly when [success] is false.  Its [total_time] is [0]
    when the filter matched no job, and otherwise the reading of the
    clock taken on return minus the reading taken at the start: it is
    not negative as soon as the clock did not run backwards. *)
Theorem run_result_shape `{!World} (self : WorkflowRunner)
    (job_filter : option string) (h : list event) (r : RunResult) :
  (run self job_filter h).1 = Ret r →
  (is_Some (error r) ↔ success r = false)
  ∧ ((total_time r = 0 ∧ (run self job_filter h).2 = [EvTime (clock h)])
     ∨ (∃ mid t1,
          (run self job_filter h).2 = EvTime (clock h) :: mid ++ [EvTime t1]
          ∧ t1 = clock (h ++ EvTime (clock h) :: mid)
          ∧ total_time r = t1 - clock h))
  ∧ ((∀ h evs, clock h ≤ clock (h ++ evs)) → 0 ≤ total_time r).
Proof.
  intros Hret.
  destruct (run_cases self job_filter h)
    as [(x & _ & _ & _ & Hrun)
       | [(r' & mid & t1 & _ & Hrun & Ht1 & Ht & Hend) | (x & mid & Hrun & Hab)]];
    rewrite Hrun in Hret |- *; simpl in Hret; [| | discriminate Hret];
    injection Hret as <-.
  - simpl. split_and!; [| by left | lia]. split; [done | by eexists].
  - split_and!.
    + destruct Hend as [(-> & -> & _) | (? & j & ? & ? & ? & ? & -> & -> & _)].
      * split; [by intros [? ?] | done].
      * split; [done | by eexists].
    + right. by exists mid, t1.
    + intros Hmono. specialize (Hmono h (EvTime (clock h) :: mid)). lia.
Qed.

(** The clock of [Demo.world] counts events, so it never runs
    backwards. *)
Lemma run_result_shape_witness :
  0 ≤ total_time {| success := true; error := None; total_time := 8 |}.
Proof.
  refine (proj2 (proj2 (run_result_shape Demo.ab (Some "a") []
                          {| success := true; error := None; total_time := 8 |} _)) _).
  - by vm_compute.
  - intros h evs. simpl. rewrite length_app. lia.
Defined.

(** ** Step dispatch *)

(** C2 fails on a command step whose name holds a closing tag: the
    process exits with code [0], and [_run_step], instead of returning
    [True], raises the [MarkupError] of the line that reports the step;
    [run] raises with it, and the next job is never dispatched. *)
Theorem run_step_markup_error :
  is_command Demo.tagged_step = true
  ∧ @shell_answer Demo.rich Demo.tagged ∅ Demo.tagged_step [] = Completed 0 ""
  ∧ (@_run_step Demo.rich Demo.tagged Demo.tagged_step ∅ []).1
    = Raise (ConsoleError "closing tag in 'clean [/tmp]' doesn't match any open tag")
  ∧ (@run Demo.rich Demo.tagged None []).1
    = Raise (ConsoleError "closing tag in 'clean [/tmp]' doesn't match any open tag")
  ∧ jobs_dispatched (@run Demo.rich Demo.tagged None []).2
    = [ Demo.job "clean" [Demo.tagged_step] ].
Proof. split_and!; by vm_compute. Qed.

(** C7 as stated fails: a [KeyboardInterrupt] that [subprocess.run]
    re-raises is no [Exception], so [except Exception] lets it through,
    out of [_run_step] and out of [run]. *)
Lemma interrupt_counterexample :
  let step := Demo.command_step "sleep 60" in
  let self := Demo.runner [Demo.job "wait" [step]] in
  is_command step = true
  ∧ @shell_answer Demo.rich self ∅ step [] = Interrupted ""
  ∧ (@_run_step Demo.rich self step ∅ []).1 = Raise (Interrupt "")
  ∧ (@run Demo.rich self None []).1 = Raise (Interrupt "").
Proof. split_and!; by vm_compute. Qed.

(** C7, amended.  An [Exception] raised by [subprocess.run] never
    leaves the dispatcher: it propagates neither out of [_run_step] nor
    out of [run]; once the call has raised it, the step either returns
    [False] or is stopped by the console refusing a line.  With a
    console that prints every line, a command step whose call raises an
    [Exception] prints it as an error line and returns [False], and one
    whose call is interrupted raises the interrupt. *)
Theorem dispatcher_contains_exceptions `{!World} (self : WorkflowRunner)
    (step : Step.t) (env : gmap string value) (h : list event) :
  (∀ x, (_run_step self step env h).1 ≠ Raise (ProcessError x))
  ∧ (∀ job_filter h0 x, (run self job_filter h0).1 ≠ Raise (ProcessError x))
  ∧ (∀ c e cap x,
       EvSubprocess c e cap (Raised x) ∈ (_run_step self step env h).2 →
       (_run_step self step env h).1 = Ret false
       ∨ ∃ e', (_run_step self step env h).1 = Raise (ConsoleError e'))
  ∧ (console_accepts → is_command step = true →
     (∀ x, shell_answer self env step h = Raised x →
           (_run_step self step env h).1 = Ret false
           ∧ EvPrint (ErrorText x) ∈ (_run_step self step env h).2)
     ∧ (∀ x, shell_answer self env step h = Interrupted x →
             (_run_step self step env h).1 = Raise (Interrupt x))).
Proof.
  assert (Hcont := _run_step_contained self step env h).
  assert (Hdisp := _run_step_dispatch self step env h).
  split_and!.
  - intros x Hraise.
    destruct (post_raise_inv _ _ _ _ _ Hcont Hraise) as [Hno _].
    exact (Hno x eq_refl).
  - intros job_filter h0 x. apply run_contained.
  - intros c e cap x Hin.
    destruct (_run_step self step env h) as [[b | y] evs] eqn:Hrun;
      unfold post in Hcont; rewrite Hrun in Hcont; simpl in *.
    + left. by rewrite (Hcont c e cap x Hin).
    + right. destruct Hcont as [_ Hcons].
      destruct (Hcons c e cap x Hin) as [e' ->]. by exists e'.
  - intros Hc Hcmd.
    assert (Hcalm := _run_step_calm self step env h Hc).
    assert (Hact : is_action step = false).
    { unfold is_command, is_action in *. by destruct (truthy (Step.uses step)). }
    destruct (_run_step self step env h) as [[b | y] evs] eqn:Hrun;
      unfold post in Hcalm, Hdisp; rewrite Hrun in Hcalm, Hdisp; simpl in *.
    + split.
      * intros x Hx. destruct (Hcalm Hcmd x Hx) as [-> Hin]. done.
      * intros x Hx. destruct Hdisp as (_ & _ & _ & Hno).
        specialize (Hno x Hx). congruence.
    + destruct Hcalm as (e & -> & [[_ He] | [He _]]); [| congruence]. split.
      * intros x Hx. congruence.
      * intros x Hx. congruence.
Qed.

(** A command step whose [env] holds an integer: [subprocess.run]
    raises [TypeError], and the step reports failure. *)
Lemma dispatcher_contains_exceptions_witness :
  (_run_step Demo.ab Demo.port_step ∅ []).1 = Ret false
  ∧ EvPrint (ErrorText "expected str, bytes or os.PathLike object, not int")
    ∈ (_run_step Demo.ab Demo.port_step ∅ []).2.
Proof.
  refine (proj1 (proj2 (proj2 (proj2
            (dispatcher_contains_exceptions Demo.ab Demo.port_step ∅ [])))
            _ _)
          "expected str, bytes or os.PathLike object, not int" _).
  - intros h line. reflexivity.
  - reflexivity.
  - by vm_compute.
Defined.

(** Next to it, the console: a failing command whose standard error
    holds a closing tag.  [console.print] raises on that text, inside
    the [try]; the handler catches the [MarkupError] and prints it, tag
    included, which raises in turn, and the step raises instead of
    returning [False]. *)
Example stderr_markup_error :
  @shell_answer Demo.rich Demo.ab ∅ Demo.list_step []
  = Completed 2 "ls: cannot access '[/nowhere]': No such file or directory"
  ∧ printed (@_run_step Demo.rich Demo.ab Demo.list_step ∅ []).2 = []
  ∧ ∃ e, (@_run_step Demo.rich Demo.ab Demo.list_step ∅ []).1 = Raise (ConsoleError e).
Proof. split_and!; [by vm_compute.. |]. eexists. by vm_compute. Qed.




(** ** Environment layering *)

(** What [_build_environment] returns holds strings only. *)
Lemma _build_environment_str (self : WorkflowRunner) (job : Job.t) K v :
  _build_environment self job !! K = Some v → is_str v = true.
Proof.
  unfold _build_environment. rewrite lookup_fmap.
  destruct (_ !! K); simpl; [intros [= <-] | intros [=]]. reflexivity.
Qed.

(** The environment of the child process: [step_env] wins over the
    ambient environment, which fills the keys [step_env] leaves unset. *)
Lemma subprocess_env_lookup `{!World} (env : gmap string value) K :
  dict_update (VStr <$> os_environ) env !! K
  = match env !! K with
    | Some v => Some v
    | None => VStr <$> os_environ !! K
    end.
Proof.
  unfold dict_update. rewrite lookup_union, lookup_fmap.
  destruct (env !! K), (os_environ !! K); reflexivity.
Qed.

(** The five layers of the environment of a command, innermost first. *)
Lemma passed_env_lookup `{!World} (self : WorkflowRunner) (job : Job.t)
    (step : Step.t) (K : string) :
  passed_env (_build_environment self job) step !! K
  = match Step.env step !! K with
    | Some v => Some v
    | None =>
      match Job.env job !! K with
      | Some v => Some (VStr (py_str v))
      | None =>
        match Workflow.env (workflow self) !! K with
        | Some v => Some (VStr (py_str v))
        | None =>
          match (list_to_map (context_vars self job) : gmap string value) !! K with
          | Some v => Some (VStr (py_str v))
          | None => VStr <$> os_environ !! K
          end
        end
      end
    end.
Proof.
  unfold passed_env, step_env, _build_environment, dict_update.
  rewrite !lookup_union, lookup_fmap, !lookup_union, lookup_fmap.
  destruct (Step.env step !! K), (Job.env job !! K),
    (Workflow.env (workflow self) !! K), (list_to_map (context_vars self job) !! K),
    (os_environ !! K); reflexivity.
Qed.

(** C4 as stated fails twice.  A key set in no layer is not unset in
    the environment of the command when the runner's own environment
    sets it: [PATH] arrives with its ambient value.  And a job-level
    value arrives as its [str()]: the integer [3] as the string ["3"]. *)
Lemma environment_counterexample :
  let passed := passed_env (_build_environment Demo.retry Demo.retry_job)
                  (Demo.command_step "exit 0") in
  EvSubprocess (VStr "exit 0") passed true (Completed 0 "")
    ∈ (run Demo.retry None []).2
  ∧ Step.env (Demo.command_step "exit 0") !! "PATH" = None
  ∧ Job.env Demo.retry_job !! "PATH" = None
  ∧ Workflow.env (workflow Demo.retry) !! "PATH" = None
  ∧ ("PATH" ∉ context_keys)
  ∧ passed !! "PATH" = Some (VStr "/usr/bin")
  ∧ Job.env Demo.retry_job !! "RETRIES" = Some (VInt 3)
  ∧ passed !! "RETRIES" = Some (VStr "3").
Proof.
  split_and!; try by vm_compute.
  - vm_compute. apply list_elem_of_In. simpl. tauto.
  - intros Hin. apply list_elem_of_In in Hin. simpl in Hin.
    repeat destruct Hin as [Hin | Hin]; try discriminate Hin. done.
Qed.

(** C4, amended.  A command step dispatched in the environment of its
    job calls [subprocess.run] with one environment, in which a key has
    the value of the innermost layer that sets it: the step's [env];
    else the job's; else the workflow's; else the simulated CI context,
    which sets exactly the six fixed keys; else the runner's own
    [os.environ]; else it is unset.  Job, workflow and context values
    arrive in their string form, the step's own values as they are, the
    ambient ones as the strings they are.  Every call the step makes
    is made with that environment, and a command step that returns has
    made the call. *)
Theorem environment_precedence `{!World} (self : WorkflowRunner) (job : Job.t)
    (step : Step.t) (h : list event) (K : string) :
  let context : gmap string value := list_to_map (context_vars self job) in
  let passed := passed_env (_build_environment self job) step in
  let evs := (_run_step self step (_build_environment self job) h).2 in
  (∀ c e cap r, EvSubprocess c e cap r ∈ evs →
     is_command step = true ∧ c = Step.run step ∧ e = passed
     ∧ cap = negb (verbose self))
  ∧ (is_command step = true →
     ∀ b, (_run_step self step (_build_environment self job) h).1 = Ret b →
          EvSubprocess (Step.run step) passed (negb (verbose self))
            (shell_answer self (_build_environment self job) step h) ∈ evs)
  ∧ passed !! K
    = match Step.env step !! K with
      | Some v => Some v
      | None =>
        match Job.env job !! K with
        | Some v => Some (VStr (py_str v))
        | None =>
          match Workflow.env (workflow self) !! K with
          | Some v => Some (VStr (py_str v))
          | None =>
            match context !! K with
            | Some v => Some (VStr (py_str v))
            | None => VStr <$> os_environ !! K
            end
          end
        end
      end
  ∧ (is_Some (context !! K) ↔ K ∈ context_keys).
Proof.
  intros context passed evs.
  assert (Heff := _run_step_effects self step (_build_environment self job) h).
  assert (Hdisp := _run_step_dispatch self step (_build_environment self job) h).
  unfold post in Heff, Hdisp. subst evs.
  split_and!.
  - intros c e cap r Hin.
    assert (Hspawn : (c, e, cap) ∈ spawns (_run_step self step (_build_environment self job) h).2).
    { unfold spawns. apply list_elem_of_omap. by exists (EvSubprocess c e cap r). }
    assert (Hpre : spawns (_run_step self step (_build_environment self job) h).2
                     `prefix_of` option_list (spawn_with self (_build_environment self job) step)).
    { destruct (_run_step self step (_build_environment self job) h) as [[b | y] evs];
        simpl in *.
      - destruct Heff as (_ & _ & _ & -> & _). done.
      - by destruct Heff as (_ & _ & _ & ? & _). }
    destruct Hpre as (rest & Hrest).
    assert (Hopt : (c, e, cap) ∈ option_list (spawn_with self (_build_environment self job) step)).
    { rewrite Hrest. apply elem_of_app. by left. }
    unfold spawn_with in Hopt. destruct (is_command step); simpl in Hopt.
    + apply list_elem_of_singleton in Hopt. by injection Hopt as -> -> ->.
    + by apply elem_of_nil in Hopt.
  - intros Hcmd b Hret.
    destruct (_run_step self step (_build_environment self job) h) as [[b' | y] evs];
      simpl in *; [| discriminate Hret].
    destruct Hdisp as (_ & Hspawn & _). by destruct (Hspawn Hcmd).
  - apply passed_env_lookup.
  - rewrite <- elem_of_dom. unfold context.
    rewrite dom_list_to_map_L, elem_of_list_to_set. reflexivity.
Qed.

(** In [Demo.web], [PORT] comes from the step, [GITHUB_JOB] from the
    context and [PATH] from the ambient environment; [HOME] is unset. *)
Lemma environment_precedence_witness :
  let job := Job.mk (VStr "web") (VStr "web") (VStr "ubuntu-latest") ∅ [Demo.port_step] in
  let passed := passed_env (_build_environment Demo.web job) Demo.port_step in
  EvSubprocess (VStr "make serve") passed true
    (shell_answer Demo.web (_build_environment Demo.web job) Demo.port_step [])
    ∈ (_run_step Demo.web Demo.port_step (_build_environment Demo.web job) []).2
  ∧ passed !! "PORT" = Some (VInt 8080)
  ∧ passed !! "GITHUB_JOB" = Some (VStr "web")
  ∧ passed !! "PATH" = Some (VStr "/usr/bin")
  ∧ passed !! "HOME" = None.
Proof.
  intros job passed. split_and!.
  - refine (proj1 (proj2 (environment_precedence Demo.web job Demo.port_step [] "PORT"))
              _ false _).
    + reflexivity.
    + by vm_compute.
  - exact (proj1 (proj2 (proj2 (environment_precedence Demo.web job Demo.port_step [] "PORT")))).
  - exact (proj1 (proj2 (proj2 (environment_precedence Demo.web job Demo.port_step [] "GITHUB_JOB")))).
  - exact (proj1 (proj2 (proj2 (environment_precedence Demo.web job Demo.port_step [] "PATH")))).
  - exact (proj1 (proj2 (proj2 (environment_precedence Demo.web job Demo.port_step [] "HOME")))).
Defined.

(** The environment handed to [subprocess.run] carries the step's own
    [env] values as the document gave them. *)
Lemma step_env_keeps_step_values (self : WorkflowRunner) (job : Job.t)
    (step : Step.t) K v :
  Step.env step !! K = Some v →
  step_env (_build_environment self job) step !! K = Some v.
Proof.
  intros Hv. unfold step_env, dict_update.
  by apply lookup_union_Some_l.
Qed.

(** C5 fails on a step whose [env] holds a YAML integer: the value
    reaches [subprocess.run] as an [int].  With a shell that, like
    CPython's, raises [TypeError] on such an environment, the step and
    the run fail. *)
Theorem step_env_not_coerced :
  let job := Job.mk (VStr "web") (VStr "web") (VStr "ubuntu-latest") ∅ [Demo.port_step] in
  let passed := dict_update (VStr <$> os_environ)
                  (step_env (_build_environment Demo.web job) Demo.port_step) in
  step_env (_build_environment Demo.web job) Demo.port_step !! "PORT" = Some (VInt 8080)
  ∧ is_str (VInt 8080) = false
  ∧ passed !! "PORT" = Some (VInt 8080)
  ∧ EvSubprocess (VStr "make serve") passed true
      (Raised "expected str, bytes or os.PathLike object, not int")
    ∈ (run Demo.web None []).2
  ∧ (run Demo.web None []).1
    = Ret {| success := false; error := Some "Job 'web' failed"; total_time := 9 |}.
Proof.
  split_and!; try by vm_compute.
  vm_compute. apply list_elem_of_In. simpl. tauto.
Qed.

(** ** Loading *)

Section LoaderFacts.

Context `{!Loader.Files}.
Variable self : Loader.WorkflowParser.

Lemma parse_jobs_never_raises_other items e :
  Loader.parse_jobs items = inl e → ∃ msg, e = Loader.TypeError msg.
Proof.
  induction items as [| [job_id job_data] rest IH]; simpl; [done |].
  destruct job_data; try exact IH.
  destruct (Loader.iterate _); [| intros [= <-]; eauto].
  destruct (Loader.parse_jobs rest); [| done].
  intros [= <-]. by apply IH.
Qed.

(** The three documented failures happen exactly as documented. *)
Lemma parse_not_found :
  (∃ msg, Loader.parse self = inl (Loader.FileNotFoundError msg))
  ↔ Loader.path_exists (Loader.workflow_path self) = false.
Proof.
  unfold Loader.parse.
  destruct (Loader.path_exists _); simpl; [| split; eauto].
  split; [| done]. intros [msg Hmsg].
  repeat case_match; simplify_eq.
  match goal with
  | Hj : Loader.parse_jobs _ = inl _ |- _ =>
      by apply parse_jobs_never_raises_other in Hj as [? ?]
  end.
Qed.

Lemma parse_invalid_yaml text :
  Loader.path_exists (Loader.workflow_path self) = true →
  Loader.open_read (Loader.workflow_path self) = Loader.Opened text →
  (∃ e, Loader.safe_load text = Loader.YAMLError e)
  → ∃ msg, Loader.parse self = inl (Loader.ValueError msg).
Proof.
  intros Hex Hopen [e He]. unfold Loader.parse. rewrite Hex, Hopen, He. eauto.
Qed.

Lemma parse_not_a_mapping text data :
  Loader.path_exists (Loader.workflow_path self) = true →
  Loader.open_read (Loader.workflow_path self) = Loader.Opened text →
  Loader.safe_load text = Loader.Document data →
  (∀ items, data ≠ Loader.YMap items) →
  Loader.parse self
  = inl (Loader.ValueError "Workflow file must contain a YAML dictionary").
Proof.
  intros Hex Hopen Hload Hnot. unfold Loader.parse. rewrite Hex, Hopen, Hload.
  destruct data; try reflexivity. by destruct (Hnot items).
Qed.

(** A [ValueError] out of [yaml.safe_load] itself leaves [parse] as it
    is. *)
Lemma parse_load_raises text e :
  Loader.path_exists (Loader.workflow_path self) = true →
  Loader.open_read (Loader.workflow_path self) = Loader.Opened text →
  Loader.safe_load text = Loader.LoadRaises e →
  Loader.parse self = inl (Loader.ValueError e).
Proof.
  intros Hex Hopen Hload. unfold Loader.parse. by rewrite Hex, Hopen, Hload.
Qed.

End LoaderFacts.

(** C9 fails on a file that exists, is valid YAML and is a mapping at
    top level, with nothing under [jobs]: [parse] neither returns a
    workflow nor raises one of its three documented errors; it raises
    [AttributeError] from [jobs.items()]. *)
Theorem parse_jobs_null_raises :
  Loader.path_exists (Loader.workflow_path Demo.ci_yml) = true
  ∧ Loader.safe_load "jobs:" = Loader.Document (Loader.YMap [(Loader.YStr "jobs", Loader.YNull)])
  ∧ Loader.parse Demo.ci_yml
    = inl (Loader.AttributeError "'NoneType' object has no attribute 'items'").
Proof. split_and!; reflexivity. Qed.

(** ** What a run does besides returning *)

Lemma spawns_app e1 e2 : spawns (e1 ++ e2) = spawns e1 ++ spawns e2.
Proof. apply omap_app. Qed.

Lemma sleeps_app e1 e2 : sleeps (e1 ++ e2) = (sleeps e1 + sleeps e2)%nat.
Proof. unfold sleeps. by rewrite omap_app, length_app. Qed.

Lemma printed_app e1 e2 : printed (e1 ++ e2) = printed e1 ++ printed e2.
Proof. apply omap_app. Qed.

Lemma reported_names_app e1 e2 :
  reported_names (e1 ++ e2) = reported_names e1 ++ reported_names e2.
Proof. apply omap_app. Qed.

Lemma reported_elapsed_app e1 e2 :
  reported_elapsed (e1 ++ e2) = reported_elapsed e1 ++ reported_elapsed e2.
Proof. apply omap_app. Qed.

Lemma job_headers_app e1 e2 : job_headers (e1 ++ e2) = job_headers e1 ++ job_headers e2.
Proof. apply omap_app. Qed.

Lemma Zsum_app l1 l2 : Zsum (l1 ++ l2) = Zsum l1 + Zsum l2.
Proof. unfold Zsum. induction l1 as [| x l1 IH]; simpl; [done | lia]. Qed.

Create Rewrite HintDb effects.
#[export] Hint Rewrite spawns_app sleeps_app printed_app reported_names_app
  reported_elapsed_app job_headers_app jobs_dispatched_app steps_dispatched_app
  step_outcomes_app Zsum_app : effects.

Section RunnerEffects.

Context `{!World}.
Variable self : WorkflowRunner.

Lemma accounted_nil : accounted self [].
Proof. unfold accounted. split_and!; try done. Qed.

Lemma accounted_app e1 e2 :
  accounted self e1 → accounted self e2 → accounted self (e1 ++ e2).
Proof.
  unfold accounted.
  intros (Hs1 & Hz1 & Hn1 & Ho1 & Hh1 & Hp1) (Hs2 & Hz2 & Hn2 & Ho2 & Hh2 & Hp2).
  autorewrite with effects.
  rewrite omap_app, List.filter_app, !fmap_app, !length_app.
  rewrite Hs1, Hs2, Hz1, Hz2, Hn1, Hn2, Ho1, Ho2, Hh1, Hh2.
  split_and!; try done. by apply Forall_app.
Qed.

Lemma accounted_time t : accounted self [EvTime t].
Proof. unfold accounted. split_and!; try done. Qed.

Lemma accounted_job job : accounted self [EvRunJob job; EvPrint (JobHeader (Job.name job))].
Proof. unfold accounted. split_and!; try done. by repeat constructor. Qed.

Lemma accounted_upto_full evs : accounted self evs → accounted_upto self evs.
Proof.
  unfold accounted, accounted_upto.
  intros (-> & -> & -> & -> & -> & Hp). split_and!; done.
Qed.

Lemma accounted_upto_app e1 e2 :
  accounted self e1 → accounted_upto self e2 → accounted_upto self (e1 ++ e2).
Proof.
  unfold accounted, accounted_upto.
  intros (Hs1 & Hz1 & Hn1 & Ho1 & Hh1 & Hp1) (Hs2 & Hz2 & Hn2 & Ho2 & Hh2 & Hp2).
  autorewrite with effects.
  rewrite omap_app, List.filter_app, !fmap_app, !length_app.
  rewrite Hs1, Hz1, Hn1, Ho1, Hh1.
  split_and!; try (by apply prefix_app); try lia. by apply Forall_app.
Qed.

(** Every history of [run] is accounted for by what it dispatched: in
    full when [run] returns, and up to the step or header at which it
    was stopped when [run] raises. *)
Lemma run_accounted job_filter h :
  post (run self job_filter) h (λ _, accounted self) (λ _, accounted_upto self).
Proof.
  apply run_trace.
  - apply accounted_nil.
  - apply accounted_app.
  - intros x. apply accounted_upto_app.
  - apply accounted_time.
  - intros job h0. apply post_print.
    + intros _. apply accounted_job.
    + intros e _. unfold accounted_upto. split_and!; try done; try apply prefix_nil.
  - intros job step h0.
    eapply post_mono; [| | apply _run_step_effects].
    + intros b e1 (Hj & Hd & Ho & Hs & Hz & Hn & Hh & Hp & _).
      unfold accounted. autorewrite with effects.
      rewrite Hd, Hs, Hz, Hn, Ho, Hj, Hh. simpl.
      split_and!; try done. by destruct (is_action step).
    + intros x e1 (Hj & Hd & Ho & Hs & Hz & Hn & Hh & Hp).
      unfold accounted_upto. autorewrite with effects.
      rewrite Hd, Hn, Ho, Hj, Hh. simpl.
      split_and!; try done; try apply prefix_nil; [| lia].
      destruct (is_action step); simpl in *; lia.
Qed.

Lemma run_accounted_upto job_filter h :
  accounted_upto self (run self job_filter h).2.
Proof.
  apply post_events. eapply post_mono; [| | apply run_accounted]; [| done].
  intros r evs. apply accounted_upto_full.
Qed.

Lemma run_accounted_ret job_filter h r :
  (run self job_filter h).1 = Ret r → accounted self (run self job_filter h).2.
Proof. intros Hret. exact (post_ret_inv _ _ _ _ _ (run_accounted job_filter h) Hret). Qed.

(** What stops a step: the console refusing a line, an interrupt of
    the wait for its process, the last thing in its history, or an
    interrupt of the pause of an action. *)
Lemma _run_step_raises step env h :
  post (_run_step self step env) h (λ _ _, True)
    (λ x evs,
      (∃ e h' line, x = ConsoleError e ∧ console h' line = Some e)
      ∨ (∃ e c env' cap, x = Interrupt e
           ∧ last evs = Some (EvSubprocess c env' cap (Interrupted e)))
      ∨ (∃ e h', x = Interrupt e ∧ sleep h' = Some e ∧ is_action step = true)).
Proof.
  unfold is_action. run_step_cases; first [ done | by eauto 10 ].
Qed.

Lemma run_raises job_filter h :
  post (run self job_filter) h (λ _ _, True)
    (λ x evs,
      (∃ e h' line, x = ConsoleError e ∧ console h' line = Some e)
      ∨ (∃ e c env' cap, x = Interrupt e
           ∧ last evs = Some (EvSubprocess c env' cap (Interrupted e)))
      ∨ (∃ e h' j s, x = Interrupt e ∧ sleep h' = Some e
           ∧ last (steps_dispatched evs) = Some (j, s) ∧ is_action s = true)).
Proof.
  apply (run_trace self (λ _, True)); try done.
  - intros x e1 e2 _ [Hc | [(e & c & env' & cap & -> & Hlast)
                           | (e & h' & j & s & -> & He & Hlast & Hs)]]; [by left | |].
    + right; left. exists e, c, env', cap. split; [done |].
      destruct e2 as [| ev e2]; [done |]. by rewrite last_app_cons.
    + right; right. exists e, h', j, s. split_and!; [done.. | | done].
      rewrite steps_dispatched_app, last_app. by rewrite Hlast.
  - intros job h0. apply post_print; [done |]. intros e He. left. eauto.
  - intros job step h0.
    eapply post_mono;
      [| | apply post_and; [apply _run_step_raises | apply _run_step_post]]; [done |].
    intros x evs ([Hc | [(e & c & env' & cap & -> & Hlast)
                        | (e & h' & -> & He & Hs)]] & _ & Hd & _); [by left | |].
    + right; left. exists e, c, env', cap. split; [done |].
      destruct evs as [| ev evs]; [done |]. exact Hlast.
    + right; right. exists e, h', job, step. split_and!; [done.. | | done].
      rewrite steps_dispatched_app, Hd. done.
Qed.

(** The branch taken by [_run_step] reports no step itself. *)
Lemma dispatch_post step env h :
  post (if truthy (Step.uses step) then _run_action self step env
        else if truthy (Step.run step) then _run_command self step env
        else mret true) h
    (λ b evs, reported_elapsed evs = []) (λ x evs, reported_elapsed evs = []).
Proof.
  unfold post, _run_action, _run_command, try_except,
    subprocess_run, time_sleep, console_print, emit,
    mbind, M_bind, mret, M_mret.
  repeat (case_match; simplify_eq/=); done.
Qed.

Section Monotone.

Hypothesis clock_monotone : ∀ h evs, clock h ≤ clock (h ++ evs).

(** The seconds a step reports lie between the two ends of its own
    stretch of the history. *)
Lemma _run_step_elapsed step env h :
  post (_run_step self step env) h
    (λ b evs, Forall (λ t, 0 ≤ t ≤ clock (h ++ evs) - clock h) (reported_elapsed evs))
    (λ x evs, reported_elapsed evs = []).
Proof.
  unfold _run_step. apply post_bind, post_time, post_bind.
  eapply post_mono; [| | apply dispatch_post].
  - intros b e1 He1. apply post_bind, post_time.
    assert (Hend : ∀ line : console_line,
              (∃ n, line = StepSuccess n (clock ((h ++ [EvTime (clock h)]) ++ e1) - clock h)
                    ∨ line = StepFailure n (clock ((h ++ [EvTime (clock h)]) ++ e1) - clock h)) →
              Forall (λ t, 0 ≤ t ≤ clock (h ++ [EvTime (clock h)] ++ e1 ++
                                            [EvTime (clock ((h ++ [EvTime (clock h)]) ++ e1))]
                                            ++ [EvPrint line] ++ []) - clock h)
                (reported_elapsed ([EvTime (clock h)] ++ e1 ++
                                   [EvTime (clock ((h ++ [EvTime (clock h)]) ++ e1))]
                                   ++ [EvPrint line] ++ []))).
    { intros line (n & Hline). autorewrite with effects. rewrite He1.
      assert (H1 := clock_monotone h ([EvTime (clock h)] ++ e1)).
      assert (H2 := clock_monotone ((h ++ [EvTime (clock h)]) ++ e1)
                      ([EvTime (clock ((h ++ [EvTime (clock h)]) ++ e1))]
                       ++ [EvPrint line] ++ [])).
      rewrite <- !(assoc_L (++)) in *.
      destruct Hline as [-> | ->]; simpl in *; apply Forall_singleton; lia. }
    apply post_bind.
    destruct b; apply post_print.
    + intros _. apply post_ret. apply Hend. eauto.
    + intros e _. autorewrite with effects. by rewrite He1.
    + intros _. apply post_ret. apply Hend. eauto.
    + intros e _. autorewrite with effects. by rewrite He1.
  - intros x e1 He1. autorewrite with effects. by rewrite He1.
Qed.

Lemma Forall_elapsed_weaken (lo hi lo' hi' : Z) l :
  lo' ≤ lo → hi ≤ hi' →
  Forall (λ t, 0 ≤ t ≤ hi - lo) l → Forall (λ t, 0 ≤ t ≤ hi' - lo') l.
Proof.
  intros Hlo Hhi HF. eapply Forall_impl; [exact HF |].
  intros t Ht. simpl in Ht. lia.
Qed.

Lemma for_steps_elapsed job env steps h :
  post (for_steps self job env steps) h
    (λ b evs, Forall (λ t, 0 ≤ t ≤ clock (h ++ evs) - clock h) (reported_elapsed evs))
    (λ x evs, Forall (λ t, 0 ≤ t ≤ clock (h ++ evs) - clock h) (reported_elapsed evs)).
Proof.
  revert h. induction steps as [| step rest IH]; intros h; simpl.
  - apply post_ret. constructor.
  - apply post_bind, post_emit, post_bind.
    eapply post_mono; [| | apply _run_step_elapsed].
    + intros b e1 He1.
      assert (H0 := clock_monotone h [EvRunStep job step]).
      assert (Hboth : ∀ e2,
                Forall (λ t, 0 ≤ t ≤ clock (((h ++ [EvRunStep job step]) ++ e1) ++ e2)
                                     - clock ((h ++ [EvRunStep job step]) ++ e1))
                  (reported_elapsed e2) →
                Forall (λ t, 0 ≤ t ≤ clock (h ++ [EvRunStep job step] ++ e1 ++ e2) - clock h)
                  (reported_elapsed ([EvRunStep job step] ++ e1 ++ e2))).
      { intros e2 He2. cbv beta in *.
        assert (H2 := clock_monotone ((h ++ [EvRunStep job step]) ++ e1) e2).
        autorewrite with effects. rewrite <- !(assoc_L (++)) in *.
        apply Forall_app. split; [constructor |]. apply Forall_app. split.
        * eapply Forall_elapsed_weaken; [| | exact He1]; lia.
        * assert (H1 := clock_monotone (h ++ [EvRunStep job step]) e1).
          rewrite <- !(assoc_L (++)) in *.
          eapply Forall_elapsed_weaken; [| | exact He2]; lia. }
      destruct b; cbn [negb].
      * eapply post_mono; [| | apply IH].
        -- intros b e2 He2. by apply Hboth.
        -- intros x e2 He2. by apply Hboth.
      * apply post_ret. cbv beta in *. rewrite app_nil_r.
        autorewrite with effects. rewrite <- !(assoc_L (++)) in *.
        apply Forall_app. split; [constructor |].
        eapply Forall_elapsed_weaken; [| | exact He1]; lia.
    + intros x e1 He1. autorewrite with effects. rewrite He1. constructor.
Qed.

Lemma _run_job_elapsed job h :
  post (_run_job self job) h
    (λ b evs, Forall (λ t, 0 ≤ t ≤ clock (h ++ evs) - clock h) (reported_elapsed evs))
    (λ x evs, Forall (λ t, 0 ≤ t ≤ clock (h ++ evs) - clock h) (reported_elapsed evs)).
Proof.
  unfold _run_job. apply post_bind, post_print.
  - intros _.
    assert (Hboth : ∀ e1,
              Forall (λ t, 0 ≤ t ≤ clock ((h ++ [EvPrint (JobHeader (Job.name job))]) ++ e1)
                                  - clock (h ++ [EvPrint (JobHeader (Job.name job))]))
                (reported_elapsed e1) →
              Forall (λ t, 0 ≤ t ≤ clock (h ++ [EvPrint (JobHeader (Job.name job))] ++ e1)
                                  - clock h)
                (reported_elapsed ([EvPrint (JobHeader (Job.name job))] ++ e1))).
    { intros e1 He1.
      assert (H0 := clock_monotone h [EvPrint (JobHeader (Job.name job))]).
      autorewrite with effects. rewrite <- !(assoc_L (++)) in *.
      apply Forall_app. split; [constructor |].
      eapply Forall_elapsed_weaken; [| | exact He1]; lia. }
    eapply post_mono; [| | apply for_steps_elapsed].
    + intros b e1 He1. by apply Hboth.
    + intros x e1 He1. by apply Hboth.
  - intros e _. constructor.
Qed.

(** The job loop: every step's seconds fit between the start of the loop
    and the reading that closes it. *)
Lemma for_jobs_elapsed start_time jobs h :
  post (for_jobs self start_time jobs) h
    (λ r evs,
      Forall (λ t, 0 ≤ t ≤ total_time r + start_time - clock h) (reported_elapsed evs))
    (λ x evs, Forall (λ t, 0 ≤ t ≤ clock (h ++ evs) - clock h) (reported_elapsed evs)).
Proof.
  revert h. induction jobs as [| job rest IH]; intros h; simpl.
  - apply post_bind, post_time, post_ret. constructor.
  - apply post_bind, post_emit, post_bind.
    eapply post_mono; [| | apply _run_job_elapsed].
    + intros b e1 He1. cbv beta in *.
      assert (H0 := clock_monotone h [EvRunJob job]).
      assert (H1 := clock_monotone (h ++ [EvRunJob job]) e1).
      destruct b; cbn [negb].
      * eapply post_mono;
          [| | apply post_and; [apply IH | apply (for_jobs_post self start_time rest)]].
        -- intros r e2 (He2 & mid & -> & Ht & _). cbv beta in *.
           assert (H2 := clock_monotone ((h ++ [EvRunJob job]) ++ e1) mid).
           autorewrite with effects in *. rewrite <- !(assoc_L (++)) in *.
           apply Forall_app. split; [constructor |]. apply Forall_app. split.
           ++ eapply Forall_elapsed_weaken; [| | exact He1]; lia.
           ++ eapply Forall_elapsed_weaken; [| | exact He2]; lia.
        -- intros x e2 (He2 & _). cbv beta in *.
           assert (H2 := clock_monotone ((h ++ [EvRunJob job]) ++ e1) e2).
           autorewrite with effects in *. rewrite <- !(assoc_L (++)) in *.
           apply Forall_app. split; [constructor |]. apply Forall_app. split.
           ++ eapply Forall_elapsed_weaken; [| | exact He1]; lia.
           ++ eapply Forall_elapsed_weaken; [| | exact He2]; lia.
      * apply post_bind, post_time, post_ret. cbv beta in *. simpl total_time.
        autorewrite with effects. rewrite <- !(assoc_L (++)) in *.
        rewrite !app_nil_r. simpl.
        eapply Forall_impl; [exact He1 |]. intros t Ht. simpl in Ht. lia.
    + intros x e1 He1. cbv beta in *.
      assert (H0 := clock_monotone h [EvRunJob job]).
      autorewrite with effects. rewrite <- !(assoc_L (++)) in *.
      apply Forall_app. split; [constructor |].
      eapply Forall_elapsed_weaken; [| | exact He1]; lia.
Qed.

Lemma run_elapsed job_filter h :
  post (run self job_filter) h
    (λ r evs, Forall (λ t, 0 ≤ t ≤ total_time r) (reported_elapsed evs))
    (λ x evs, Forall (λ t, 0 ≤ t) (reported_elapsed evs)).
Proof.
  unfold run. apply post_bind, post_time.
  assert (Hloop : ∀ jobs, post (for_jobs self (clock h) jobs)
            (h ++ [EvTime (clock h)])
            (λ r e2, Forall (λ t, 0 ≤ t ≤ total_time r)
                       (reported_elapsed ([EvTime (clock h)] ++ e2)))
            (λ x e2, Forall (λ t, 0 ≤ t)
                       (reported_elapsed ([EvTime (clock h)] ++ e2)))).
  { intros jobs. eapply post_mono; [| | apply for_jobs_elapsed].
    - intros r e2 He2. cbv beta in *.
      assert (H0 := clock_monotone h [EvTime (clock h)]).
      autorewrite with effects. apply Forall_app. split; [constructor |].
      eapply Forall_impl; [exact He2 |]. intros t Ht. simpl in Ht. lia.
    - intros x e2 He2. cbv beta in *.
      autorewrite with effects. apply Forall_app. split; [constructor |].
      eapply Forall_impl; [exact He2 |]. intros t Ht. simpl in Ht. lia. }
  destruct job_filter as [x |]; [| apply Hloop].
  destruct (truthy (VStr x)); [| apply Hloop].
  destruct (List.filter _ _) as [| j0 js]; [| apply Hloop].
  apply post_ret. constructor.
Qed.

End Monotone.

End RunnerEffects.

(** X1.  The job environment has exactly the keys of the simulated
    context, of the workflow's [env] and of the job's [env], and every
    value in it is a string. *)
Theorem job_environment_shape (self : WorkflowRunner) (job : Job.t) :
  dom (_build_environment self job)
  = list_to_set context_keys ∪ dom (Workflow.env (workflow self)) ∪ dom (Job.env job)
  ∧ map_Forall (λ _ v, is_str v = true) (_build_environment self job).
Proof.
  split.
  - unfold _build_environment, dict_update.
    rewrite dom_fmap_L, !dom_union_L, dom_list_to_map_L. simpl.
    unfold context_keys. set_solver.
  - intros K v. unfold _build_environment. rewrite lookup_fmap.
    destruct (_ !! K); simpl; [intros [= <-] | intros [=]]. reflexivity.
Qed.



(** X3.  [run] calls [subprocess.run] for dispatched command steps
    ([run] truthy, [uses] not) and for nothing else, in dispatch order
    and at most once each, with the step's [run] text,
    [capture_output = not verbose], and [os.environ] overlaid by the step
    environment.  When [run] returns, every dispatched command step had
    its call. *)
Theorem run_spawns `{!World} (self : WorkflowRunner)
    (job_filter : option string) (h : list event) :
  spawns (run self job_filter h).2
    `prefix_of` omap (spawn_of self) (steps_dispatched (run self job_filter h).2)
  ∧ (∀ r, (run self job_filter h).1 = Ret r →
       spawns (run self job_filter h).2
       = omap (spawn_of self) (steps_dispatched (run self job_filter h).2)).
Proof.
  split.
  - by destruct (run_accounted_upto self job_filter h) as (Hs & _).
  - intros r Hret. by destruct (run_accounted_ret self job_filter h r Hret) as (Hs & _).
Qed.

(** X4.  [run] pauses at most once for each dispatched action step, and
    never otherwise; when it returns, exactly once for each. *)
Theorem run_sleeps `{!World} (self : WorkflowRunner)
    (job_filter : option string) (h : list event) :
  (sleeps (run self job_filter h).2
   ≤ length (List.filter (λ js, is_action js.2)
               (steps_dispatched (run self job_filter h).2)))%nat
  ∧ (∀ r, (run self job_filter h).1 = Ret r →
       sleeps (run self job_filter h).2
       = length (List.filter (λ js, is_action js.2)
                   (steps_dispatched (run self job_filter h).2))).
Proof.
  split.
  - by destruct (run_accounted_upto self job_filter h) as (_ & Hz & _).
  - intros r Hret.
    by destruct (run_accounted_ret self job_filter h r Hret) as (_ & Hz & _).
Qed.

(** X5.  Steps are reported in dispatch order, each under its own name
    and at most once, and job headers are printed in dispatch order, each
    under the job's name and at most once.  When [run] returns, every
    dispatched step was reported and every dispatched job had its
    header. *)
Theorem run_reports `{!World} (self : WorkflowRunner)
    (job_filter : option string) (h : list event) :
  let evs := (run self job_filter h).2 in
  reported_names evs `prefix_of` ((λ js, Step.name js.2) <$> steps_dispatched evs)
  ∧ job_headers evs `prefix_of` (Job.name <$> jobs_dispatched evs)
  ∧ (∀ r, (run self job_filter h).1 = Ret r →
       reported_names evs = (λ js, Step.name js.2) <$> steps_dispatched evs
       ∧ length (step_outcomes evs) = length (steps_dispatched evs)
       ∧ job_headers evs = Job.name <$> jobs_dispatched evs).
Proof.
  intros evs. split_and!.
  - by destruct (run_accounted_upto self job_filter h) as (_ & _ & Hn & _).
  - by destruct (run_accounted_upto self job_filter h) as (_ & _ & _ & _ & Hh & _).
  - intros r Hret.
    by destruct (run_accounted_ret self job_filter h r Hret)
      as (_ & _ & Hn & Ho & Hh & _).
Qed.

(** X6.  A runner that is not verbose never echoes an action, its
    parameters or a command; a verbose runner never prints captured
    standard error. *)
Theorem run_console_lines `{!World} (self : WorkflowRunner)
    (job_filter : option string) (h : list event) :
  ∀ line, line ∈ printed (run self job_filter h).2 →
    match line with
    | UsingAction _ | WithParams _ | Running _ => verbose self = true
    | StderrText _ => verbose self = false
    | _ => True
    end.
Proof.
  destruct (run_accounted_upto self job_filter h) as (_ & _ & _ & _ & _ & Hp).
  intros line Hin. rewrite Forall_forall in Hp. specialize (Hp line Hin).
  destruct line; simpl in Hp; try done. by destruct (verbose self).
Qed.

(** The runner of [Demo.ab] is not verbose, and prints the captured
    [boom]. *)
Lemma run_console_lines_witness : verbose Demo.ab = false.
Proof.
  refine (run_console_lines Demo.ab None [] (StderrText "boom") _).
  vm_compute. apply list_elem_of_In. simpl. tauto.
Defined.

(** X7.  The environment a command really runs in: each process [run]
    starts belongs to a dispatched step, and a key has there the value
    of the step's [env]; else of the job's; else of the workflow's; else
    of the simulated context; else of the ambient [os.environ]. *)
Theorem command_environment `{!World} (self : WorkflowRunner)
    (job_filter : option string) (h : list event) :
  ∀ c e cap, (c, e, cap) ∈ spawns (run self job_filter h).2 →
    ∃ j s, (j, s) ∈ steps_dispatched (run self job_filter h).2 ∧ c = Step.run s
           ∧ cap = negb (verbose self) ∧
      ∀ K, e !! K =
        match Step.env s !! K with
        | Some v => Some v
        | None =>
          match Job.env j !! K with
          | Some v => Some (VStr (py_str v))
          | None =>
            match Workflow.env (workflow self) !! K with
            | Some v => Some (VStr (py_str v))
            | None =>
              match (list_to_map (context_vars self j) : gmap string value) !! K with
              | Some v => Some (VStr (py_str v))
              | None => VStr <$> os_environ !! K
              end
            end
          end
        end.
Proof.
  destruct (run_accounted_upto self job_filter h) as ((rest & Hs) & _).
  intros c e cap Hin.
  assert (Hin' : (c, e, cap)
                 ∈ omap (spawn_of self) (steps_dispatched (run self job_filter h).2)).
  { rewrite Hs. apply elem_of_app. by left. }
  apply list_elem_of_omap in Hin' as ([j s] & Hjs & Hspawn).
  exists j, s. unfold spawn_of, spawn_with in Hspawn. simpl in Hspawn.
  destruct (is_command s); [| discriminate Hspawn].
  injection Hspawn as <- <- <-. split_and!; try done.
  intros K. apply passed_env_lookup.
Qed.

(** The one process of [Demo.web]. *)
Lemma command_environment_witness :
  let job := Job.mk (VStr "web") (VStr "web") (VStr "ubuntu-latest") ∅ [Demo.port_step] in
  ∃ j s, (j, s) ∈ steps_dispatched (run Demo.web None []).2
         ∧ VStr "make serve" = Step.run s ∧ true = negb (verbose Demo.web) ∧
    ∀ K, passed_env (_build_environment Demo.web job) Demo.port_step !! K =
      match Step.env s !! K with
      | Some v => Some v
      | None =>
        match Job.env j !! K with
        | Some v => Some (VStr (py_str v))
        | None =>
          match Workflow.env (workflow Demo.web) !! K with
          | Some v => Some (VStr (py_str v))
          | None =>
            match (list_to_map (context_vars Demo.web j) : gmap string value) !! K with
            | Some v => Some (VStr (py_str v))
            | None => VStr <$> os_environ !! K
            end
          end
        end
      end.
Proof.
  intros job.
  refine (command_environment Demo.web None [] (VStr "make serve")
            (passed_env (_build_environment Demo.web job) Demo.port_step) true _).
  vm_compute. apply list_elem_of_In. simpl. tauto.
Defined.




(** X10.  Running with a filter that matches is running, unfiltered,
    the workflow that keeps only the matching jobs: the two runs agree
    event for event. *)
Theorem run_filter_as_restriction `{!World} (self : WorkflowRunner)
    (X : string) (h : list event) :
  X ≠ "" →
  (∃ j, j ∈ Workflow.jobs (workflow self) ∧ py_eq_str (Job.id j) X = true) →
  run self (Some X) h = run (only_jobs self X) None h.
Proof.
  intros HX (j0 & Hj0 & Hid0).
  unfold run, mbind, M_bind, time_time. apply truthy_str in HX. rewrite HX.
  cbn [only_jobs workflow Workflow.jobs].
  destruct (List.filter _ _) as [| j js] eqn:Hsel; [| reflexivity].
  assert (Hin : j0 ∈ List.filter (λ j, py_eq_str (Job.id j) X)
                       (Workflow.jobs (workflow self))) by (by apply elem_of_filter).
  rewrite Hsel in Hin. by apply elem_of_nil in Hin.
Qed.

Lemma run_filter_as_restriction_witness :
  run Demo.ab (Some "b") [] = run (only_jobs Demo.ab "b") None [].
Proof.
  refine (run_filter_as_restriction Demo.ab "b" [] _ _).
  - discriminate.
  - exists (Demo.job "b" [Demo.command_step "exit 1"; Demo.command_step "echo"]).
    split; [apply list_elem_of_further, list_elem_of_here | reflexivity].
Defined.

(** X11.  With a clock that never runs backwards, the seconds reported
    for a step are never negative and, when [run] returns, never more
    than its [total_time]. *)
Theorem run_step_times `{!World} (self : WorkflowRunner)
    (job_filter : option string) (h : list event) :
  (∀ h evs, clock h ≤ clock (h ++ evs)) →
  Forall (λ t, 0 ≤ t) (reported_elapsed (run self job_filter h).2)
  ∧ (∀ r, (run self job_filter h).1 = Ret r →
       Forall (λ t, 0 ≤ t ≤ total_time r) (reported_elapsed (run self job_filter h).2)).
Proof.
  intros Hmono. assert (Hpost := run_elapsed self Hmono job_filter h). split.
  - apply post_events. eapply post_mono; [| | exact Hpost]; [| done].
    intros r evs HF. eapply Forall_impl; [exact HF |]. intros t Ht. simpl in Ht. lia.
  - intros r Hret. exact (post_ret_inv _ _ _ _ _ Hpost Hret).
Qed.

Lemma run_step_times_witness :
  Forall (λ t, 0 ≤ t) (reported_elapsed (run Demo.ab None []).2).
Proof.
  refine (proj1 (run_step_times Demo.ab None [] _)).
  intros h evs. simpl. rewrite length_app. lia.
Defined.

(** X12.  When exactly one job has the id given as filter, [run]
    dispatches that job and no other, whether it passes, fails or is
    stopped, and only steps of that job; a failure it returns names
    that job. *)
Theorem run_filter_unique `{!World} (self : WorkflowRunner)
    (X : string) (pre post : list Job.t) (j : Job.t) (h : list event) :
  X ≠ "" →
  Workflow.jobs (workflow self) = pre ++ j :: post →
  py_eq_str (Job.id j) X = true →
  (∀ j', j' ∈ pre ++ post → py_eq_str (Job.id j') X = false) →
  jobs_dispatched (run self (Some X) h).2 = [j]
  ∧ steps_dispatched (run self (Some X) h).2 `prefix_of` (pair j <$> Job.steps j)
  ∧ (∀ r, (run self (Some X) h).1 = Ret r → success r = false →
       error r = Some ("Job '" +:+ py_str (Job.id j) +:+ "' failed")).
Proof.
  intros HX Hjobs Hid Hothers.
  assert (Hsel : jobs_to_run self (Some X) = [j]).
  { unfold jobs_to_run. apply truthy_str in HX. rewrite HX, Hjobs.
    rewrite List.filter_app. simpl. rewrite Hid.
    assert (Hpre : List.filter (λ j, py_eq_str (Job.id j) X) pre = []).
    { apply filter_nil_iff. intros j' Hj'. apply Hothers, elem_of_app. by left. }
    assert (Hpost : List.filter (λ j, py_eq_str (Job.id j) X) post = []).
    { apply filter_nil_iff. intros j' Hj'. apply Hothers, elem_of_app. by right. }
    by rewrite Hpre, Hpost. }
  destruct (run_dispatches_prefix self (Some X) h) as [_ Hsteps].
  rewrite Hsel, all_steps_cons, app_nil_r in Hsteps.
  destruct (run_cases self (Some X) h)
    as [(x & _ & _ & Hnil & Hrun)
       | [(r' & mid & t1 & _ & Hrun & _ & _ & Hend) | (x & mid & Hrun & Hab)]].
  { rewrite Hsel in Hnil. discriminate Hnil. }
  - rewrite Hrun in Hsteps |- *. cbn [fst snd] in *.
    destruct (between_readings (clock h) t1 mid) as (-> & _ & _).
    rewrite Hsel in Hend.
    destruct Hend as [(Hok & _ & -> & _)
                     | (jpre & j1 & jpost & spre & s & spost & _ & Herr &
                        Hone & _ & -> & _)].
    + split_and!; [done | exact Hsteps |]. intros r [= <-] Hfail. congruence.
    + destruct jpre as [| j2 jpre]; simpl in Hone.
      * injection Hone as <- <-. split_and!; [done | exact Hsteps |].
        by intros r [= <-] _.
      * injection Hone as _ Hone. by destruct jpre.
  - rewrite Hrun in Hsteps |- *. cbn [fst snd] in *.
    rewrite Hsel in Hab. destruct Hab as (jpre & j1 & jpost & Hone & Hj & _).
    destruct (after_reading (clock h) mid) as (-> & _ & _).
    destruct jpre as [| j2 jpre]; simpl in Hone.
    + injection Hone as <- <-. split_and!; [done | exact Hsteps | done].
    + injection Hone as _ Hone. by destruct jpre.
Qed.

Lemma run_filter_unique_witness :
  jobs_dispatched (run Demo.ab (Some "b") []).2
  = [Demo.job "b" [Demo.command_step "exit 1"; Demo.command_step "echo"]]
  ∧ steps_dispatched (run Demo.ab (Some "b") []).2 `prefix_of`
      (pair (Demo.job "b" [Demo.command_step "exit 1"; Demo.command_step "echo"])
         <$> [Demo.command_step "exit 1"; Demo.command_step "echo"])
  ∧ (∀ r, (run Demo.ab (Some "b") []).1 = Ret r → success r = false →
       error r = Some "Job 'b' failed").
Proof.
  refine (run_filter_unique Demo.ab "b"
            [Demo.job "a" [Demo.command_step "exit 0"]] []
            (Demo.job "b" [Demo.command_step "exit 1"; Demo.command_step "echo"]) [] _ _ _ _).
  - discriminate.
  - reflexivity.
  - reflexivity.
  - intros j' Hj'. apply list_elem_of_In in Hj'. simpl in Hj'.
    destruct Hj' as [<- | []]. reflexivity.
Defined.

(** ** Properties of every event *)

Lemma diagnostics_app e1 e2 : diagnostics (e1 ++ e2) = diagnostics e1 ++ diagnostics e2.
Proof. apply omap_app. Qed.

Lemma expected_diagnostics_app e1 e2 :
  expected_diagnostics (e1 ++ e2) = expected_diagnostics e1 ++ expected_diagnostics e2.
Proof. apply omap_app. Qed.

Lemma _run_step_diagnostics `{!World} (self : WorkflowRunner) step env h :
  console_accepts →
  post (_run_step self step env) h
    (λ _ evs, diagnostics evs = expected_diagnostics evs)
    (λ _ evs, diagnostics evs = expected_diagnostics evs).
Proof.
  intros Hc. run_step_cases.
  all: repeat match goal with
              | H : console _ _ = Some _ |- _ => by rewrite Hc in H
              | H : console _ _ = None |- _ => clear H
              end.
  all: unfold diagnostics, expected_diagnostics; simpl; try done.
  all: exfalso.
  all: repeat match goal with
              | H : (_ =? 0) = _ |- _ => rewrite H in *; clear H
              | H : negb (String.eqb _ _) = _ |- _ => rewrite H in *; clear H
              end; simpl in *; try done.
  all: by destruct (String.eqb _ _).
Qed.

(** X21.  Whatever happens, [run] dispatches jobs and steps in declared
    order and each at most once: the jobs it dispatched are a prefix of
    the selected jobs, and the steps it dispatched a prefix of their
    steps. *)
Theorem run_dispatch_order `{!World} (self : WorkflowRunner)
    (job_filter : option string) (h : list event) :
  jobs_dispatched (run self job_filter h).2 `prefix_of` jobs_to_run self job_filter
  ∧ steps_dispatched (run self job_filter h).2
      `prefix_of` all_steps (jobs_to_run self job_filter).
Proof. apply run_dispatches_prefix. Qed.

(** X22.  With a console that prints every line, what [run] prints
    about failed commands is exactly what its processes call for, in
    order: [str(e)] for each call of [subprocess.run] that raised an
    [Exception], and the captured standard error, stripped, for each
    process that returned non-zero with output captured and some
    standard error; nothing for the others. *)
Theorem run_diagnostics `{!World} (self : WorkflowRunner)
    (job_filter : option string) (h : list event) :
  console_accepts →
  diagnostics (run self job_filter h).2
  = expected_diagnostics (run self job_filter h).2.
Proof.
  intros Hc.
  apply (post_events (run self job_filter) h
           (λ evs, diagnostics evs = expected_diagnostics evs)).
  apply (run_trace self (λ evs, diagnostics evs = expected_diagnostics evs)
           (λ _ evs, diagnostics evs = expected_diagnostics evs)); try done.
  - intros e1 e2 H1 H2. by rewrite diagnostics_app, expected_diagnostics_app, H1, H2.
  - intros x e1 e2 H1 H2. by rewrite diagnostics_app, expected_diagnostics_app, H1, H2.
  - intros job h0. apply post_print; [done |]. intros e He. by rewrite Hc in He.
  - intros job step h0.
    eapply post_mono; [| | apply (_run_step_diagnostics self step _ h0 Hc)]; done.
Qed.

(** In [Demo.ab] the failing command of job [b] wrote [boom]. *)
Lemma run_diagnostics_witness :
  diagnostics (run Demo.ab None []).2 = [StderrText "boom"].
Proof.
  rewrite (run_diagnostics Demo.ab None []).
  - by vm_compute.
  - intros h line. reflexivity.
Defined.



(** Every process a history records got the result the host shell gave
    to its call. *)
Lemma _run_step_answers `{!World} (self : WorkflowRunner) step env h :
  post (_run_step self step env) h
    (λ _ evs, ∀ c e cap r, EvSubprocess c e cap r ∈ evs → ∃ h', shell h' c e cap = r)
    (λ _ evs, ∀ c e cap r, EvSubprocess c e cap r ∈ evs → ∃ h', shell h' c e cap = r).
Proof.
  run_step_cases.
  all: intros ? ? ? ? Hspawned; apply list_elem_of_In in Hspawned; simpl in Hspawned.
  all: repeat destruct Hspawned as [Hspawned | Hspawned]; try done; simplify_eq; eauto.
Qed.

Lemma run_answers `{!World} (self : WorkflowRunner) job_filter h c e cap r :
  EvSubprocess c e cap r ∈ (run self job_filter h).2 → ∃ h', shell h' c e cap = r.
Proof.
  revert c e cap r.
  apply (post_events (run self job_filter) h
           (λ evs, ∀ c e cap r, EvSubprocess c e cap r ∈ evs → ∃ h', shell h' c e cap = r)).
  assert (Hone : ∀ ev evs,
            (∀ c e cap r, ev ≠ EvSubprocess c e cap r) →
            (∀ c e cap r, EvSubprocess c e cap r ∈ evs → ∃ h', shell h' c e cap = r) →
            ∀ c e cap r, EvSubprocess c e cap r ∈ [ev] ++ evs → ∃ h', shell h' c e cap = r).
  { intros ev evs Hev Hall c e cap r [Hin | Hin]%elem_of_cons; [| by eapply Hall].
    by destruct (Hev c e cap r). }
  apply (run_trace self
           (λ evs, ∀ c e cap r, EvSubprocess c e cap r ∈ evs → ∃ h', shell h' c e cap = r)
           (λ _ evs, ∀ c e cap r, EvSubprocess c e cap r ∈ evs → ∃ h', shell h' c e cap = r)).
  - intros c e cap r Hin. by apply elem_of_nil in Hin.
  - intros e1 e2 H1 H2 c e cap r [Hin | Hin]%elem_of_app; eauto.
  - intros x e1 e2 H1 H2 c e cap r [Hin | Hin]%elem_of_app; eauto.
  - intros t c e cap r Hin. apply list_elem_of_singleton in Hin. done.
  - intros job h0. apply post_print.
    + intros _. apply Hone; [done |].
      intros c e cap r Hin. apply list_elem_of_singleton in Hin. done.
    + intros x _. apply Hone; [done |].
      intros c e cap r Hin. by apply elem_of_nil in Hin.
  - intros job step h0.
    eapply post_mono; [| | apply _run_step_answers].
    + intros b evs Hall. by apply Hone.
    + intros x evs Hall. by apply Hone.
Qed.



(** ** More on loading *)

Example contains_examples :
  Validator.contains "${{}}" "run: echo ${{}} done" = true
  ∧ Validator.contains "${{}}" "run: echo ${{ }} done" = false
  ∧ Validator.contains "${{}}" "" = false.
Proof. repeat split. Qed.

Lemma get_no_key d key default :
  Loader.has_key d key = false → Loader.get d key default = default.
Proof.
  induction d as [| [k v] d IH]; simpl; [done |].
  intros [Hk Hd]%orb_false_iff.
  destruct k; simpl in *; try by apply IH.
  rewrite Hk. by apply IH.
Qed.

Lemma get_has_key d key a b :
  Loader.has_key d key = true → Loader.get d key a = Loader.get d key b.
Proof.
  induction d as [| [k v] d IH]; simpl; [done |].
  destruct k; simpl; try exact IH.
  destruct (String.eqb s key); [done | exact IH].
Qed.

(** X13.  [get_job] returns the first job whose id equals the one asked
    for, and raises [ValueError] exactly when no job has that id. *)
Theorem get_job_first (workflow : Loader.workflow_dict) (job_id : string) :
  (∀ job, Loader.get_job workflow job_id = inr job ↔
     ∃ pre post, Loader.wf_jobs workflow = pre ++ job :: post
       ∧ Loader.yaml_eq_str (Loader.job_id job) job_id = true
       ∧ ∀ j, j ∈ pre → Loader.yaml_eq_str (Loader.job_id j) job_id = false)
  ∧ (∀ e, Loader.get_job workflow job_id = inl e ↔
       e = Loader.ValueError ("Job '" +:+ job_id +:+ "' not found in workflow")
       ∧ ∀ j, j ∈ Loader.wf_jobs workflow →
           Loader.yaml_eq_str (Loader.job_id j) job_id = false).
Proof.
  unfold Loader.get_job. induction (Loader.wf_jobs workflow) as [| j0 jobs [IHr IHl]].
  - split.
    + intros job. split; [done |]. intros (pre & post & Heq & _). by destruct pre.
    + intros e. simpl. split.
      * intros [= <-]. split; [done |]. intros j Hj. by apply elem_of_nil in Hj.
      * by intros [-> _].
  - simpl. destruct (Loader.yaml_eq_str (Loader.job_id j0) job_id) eqn:Hid.
    + split.
      * intros job. split.
        -- intros [= <-]. exists [], jobs. split_and!; try done.
           intros j Hj. by apply elem_of_nil in Hj.
        -- intros (pre & post & Heq & Hjob & Hpre). destruct pre as [| j1 pre].
           ++ by injection Heq as ->.
           ++ injection Heq as <- _.
              rewrite (Hpre j0) in Hid; [done | apply list_elem_of_here].
      * intros e. split; [done |]. intros [_ Hall].
        rewrite (Hall j0) in Hid; [done | apply list_elem_of_here].
    + split.
      * intros job. rewrite IHr. split.
        -- intros (pre & post & -> & Hjob & Hpre). exists (j0 :: pre), post.
           split_and!; try done.
           intros j [-> | Hj]%elem_of_cons; [done | by apply Hpre].
        -- intros (pre & post & Heq & Hjob & Hpre). destruct pre as [| j1 pre].
           ++ injection Heq as -> _. congruence.
           ++ injection Heq as _ ->. exists pre, post. split_and!; try done.
              intros j Hj. by apply Hpre, list_elem_of_further.
      * intros e. rewrite IHl. split.
        -- intros [-> Hall]. split; [done |].
           intros j [-> | Hj]%elem_of_cons; [done | by apply Hall].
        -- intros [-> Hall]. split; [done |].
           intros j Hj. by apply Hall, list_elem_of_further.
Qed.

Section ParseFacts.

Context `{!Loader.Files}.

Lemma parse_jobs_returns_iff items :
  (∃ jobs, Loader.parse_jobs items = inr jobs) ↔
  ∀ k jd, (k, Loader.YMap jd) ∈ items →
    is_Some (Loader.iterate (Loader.get jd "steps" (Loader.YSeq []))).
Proof.
  induction items as [| [k v] rest IH]; simpl.
  - split; [| by eexists]. intros _ k jd Hin. by apply elem_of_nil in Hin.
  - assert (Hskip : ∀ k' jd, (∀ x, v ≠ Loader.YMap x) →
              ((k', Loader.YMap jd) ∈ (k, v) :: rest ↔ (k', Loader.YMap jd) ∈ rest)).
    { intros k' jd Hv. rewrite elem_of_cons. split; [| by right].
      intros [[= _ <-] | Hin]; [by destruct (Hv jd) | done]. }
    destruct v as [| | | | | | | | | | |jd0];
      try (rewrite IH; split; intros Hall k' jd Hin;
           apply (Hall k'); apply Hskip; first [discriminate | exact Hin]).
    destruct (Loader.iterate (Loader.get jd0 "steps" (Loader.YSeq []))) as [elems |] eqn:Hit.
    + destruct (Loader.parse_jobs rest) as [e | jobs] eqn:Hrest.
      * split; [intros [jobs [=]] |]. intros Hall.
        destruct (proj2 IH) as [jobs [=]].
        intros k' jd Hin. apply (Hall k'). by apply list_elem_of_further.
      * split; [| by eexists]. intros _ k' jd [[= <- <-] | Hin]%elem_of_cons.
        -- rewrite Hit. by eexists.
        -- destruct IH as [IH _]. apply (IH (ex_intro _ jobs eq_refl) k' jd Hin).
    + split; [intros [jobs [=]] |]. intros Hall.
      specialize (Hall k jd0 (list_elem_of_here _ _)). rewrite Hit in Hall.
      by destruct Hall.
Qed.

Lemma parse_jobs_content items jobs :
  Loader.parse_jobs items = inr jobs →
  Forall2 (λ job kv,
      ∃ jd elems, kv.2 = Loader.YMap jd
        ∧ Loader.job_id job = kv.1
        ∧ Loader.job_name job = Loader.get jd "name" kv.1
        ∧ Loader.job_runs_on job = Loader.get jd "runs-on" (Loader.YStr "ubuntu-latest")
        ∧ Loader.job_env job = Loader.get jd "env" (Loader.YMap [])
        ∧ Loader.iterate (Loader.get jd "steps" (Loader.YSeq [])) = Some elems
        ∧ Loader.job_steps job = omap Loader.parse_step elems)
    jobs (List.filter (λ kv, Loader.is_dict kv.2) items).
Proof.
  revert jobs. induction items as [| [k v] rest IH]; simpl; intros jobs.
  - intros [= <-]. constructor.
  - destruct v; simpl; try apply IH.
    destruct (Loader.iterate _) as [elems |] eqn:Hit; [| done].
    destruct (Loader.parse_jobs rest) as [e | jobs'] eqn:Hrest; [done |].
    intros [= <-]. constructor; [| by apply IH].
    eexists _, _. by split_and!.
Qed.

(** X14.  [parse] returns a workflow exactly when the file exists and
    opens, its text loads as a mapping, [jobs] (an empty mapping when
    absent) is a mapping, and [steps] (an empty list when absent) can be
    iterated in every job that is a mapping. *)
Theorem parse_returns_iff (self : Loader.WorkflowParser) :
  (∃ w, Loader.parse self = inr w) ↔
  Loader.path_exists (Loader.workflow_path self) = true
  ∧ ∃ text d items,
      Loader.open_read (Loader.workflow_path self) = Loader.Opened text
      ∧ Loader.safe_load text = Loader.Document (Loader.YMap d)
      ∧ Loader.get d "jobs" (Loader.YMap []) = Loader.YMap items
      ∧ ∀ k jd, (k, Loader.YMap jd) ∈ items →
          is_Some (Loader.iterate (Loader.get jd "steps" (Loader.YSeq []))).
Proof.
  unfold Loader.parse. split.
  - intros [w Hw].
    destruct (Loader.path_exists _); [| done]. split; [done |]. simpl in Hw.
    destruct (Loader.open_read _) as [| text]; [done |].
    destruct (Loader.safe_load text) as [| | data] eqn:Hload; [done.. |].
    destruct data as [| | | | | | | | | | |d]; try done.
    destruct (Loader.get d "jobs" (Loader.YMap [])) as [| | | | | | | | | | |items] eqn:Hjobs;
      try done.
    destruct (Loader.parse_jobs items) as [e | jobs] eqn:Hparse; [done |].
    exists text, d, items. split_and!; try done.
    apply parse_jobs_returns_iff. by exists jobs.
  - intros (-> & text & d & items & -> & -> & -> & Hall). simpl.
    apply parse_jobs_returns_iff in Hall as [jobs ->]. by eexists.
Qed.

(** X15.  What [parse] keeps: the workflow is named by [name] or else by
    the file stem; its jobs are the entries of [jobs] whose value is a
    mapping, in document order, the others being dropped without error;
    each job keeps its key as id and takes its name (default: the id),
    [runs-on] (default: [ubuntu-latest]) and [env] from its mapping; its
    steps are the elements of [steps] that are mappings. *)
Theorem parse_keeps (self : Loader.WorkflowParser) (w : Loader.workflow_dict) :
  Loader.parse self = inr w →
  ∃ text d items,
    Loader.open_read (Loader.workflow_path self) = Loader.Opened text
    ∧ Loader.safe_load text = Loader.Document (Loader.YMap d)
    ∧ Loader.get d "jobs" (Loader.YMap []) = Loader.YMap items
    ∧ Loader.wf_name w
      = Loader.get d "name" (Loader.YStr (Loader.stem (Loader.workflow_path self)))
    ∧ Loader.wf_env w = Loader.get d "env" (Loader.YMap [])
    ∧ Forall2 (λ job kv,
          ∃ jd elems, kv.2 = Loader.YMap jd
            ∧ Loader.job_id job = kv.1
            ∧ Loader.job_name job = Loader.get jd "name" kv.1
            ∧ Loader.job_runs_on job
              = Loader.get jd "runs-on" (Loader.YStr "ubuntu-latest")
            ∧ Loader.job_env job = Loader.get jd "env" (Loader.YMap [])
            ∧ Loader.iterate (Loader.get jd "steps" (Loader.YSeq [])) = Some elems
            ∧ Loader.job_steps job = omap Loader.parse_step elems)
        (Loader.wf_jobs w) (List.filter (λ kv, Loader.is_dict kv.2) items).
Proof.
  unfold Loader.parse. intros Hw.
  destruct (Loader.path_exists _); [| done]. simpl in Hw.
  destruct (Loader.open_read _) as [| text]; [done |].
  destruct (Loader.safe_load text) as [| | data] eqn:Hload; [done.. |].
  destruct data as [| | | | | | | | | | |d]; try done.
  destruct (Loader.get d "jobs" (Loader.YMap [])) as [| | | | | | | | | | |items] eqn:Hjobs;
    try done.
  destruct (Loader.parse_jobs items) as [e | jobs] eqn:Hparse; [done |].
  injection Hw as <-. exists text, d, items. simpl. split_and!; try done.
  by apply parse_jobs_content.
Qed.

End ParseFacts.

Lemma parse_keeps_witness :
  ∃ w text d items,
    @Loader.parse Demo.build_files {| Loader.workflow_path := Demo.build_yml |} = inr w
    ∧ @Loader.open_read Demo.build_files Demo.build_yml = Loader.Opened text
    ∧ @Loader.safe_load Demo.build_files text = Loader.Document (Loader.YMap d)
    ∧ Loader.get d "jobs" (Loader.YMap []) = Loader.YMap items
    ∧ length (Loader.wf_jobs w) = length (List.filter (λ kv, Loader.is_dict kv.2) items).
Proof.
  destruct (@Loader.parse Demo.build_files {| Loader.workflow_path := Demo.build_yml |})
    as [e | w] eqn:Hw; [vm_compute in Hw; discriminate Hw |].
  destruct (@parse_keeps Demo.build_files _ w Hw)
    as (text & d & items & Hopen & Hload & Hjobs & _ & _ & Hall).
  exists w, text, d, items. split_and!; try done.
  by apply Forall2_length in Hall.
Defined.

(** X16.  The name of a loaded step is the value under [name] when that
    key is present (whatever the value, [None] included), else the value
    under [uses], else the value under [run], else [Unnamed step]; an
    absent [uses] or [run] loads as [None]; and an element of [steps]
    that is not a mapping gives no step. *)
Theorem parse_step_fields (step : Loader.yaml) :
  match Loader.parse_step step with
  | Some sd =>
      ∃ st, step = Loader.YMap st
        ∧ Loader.step_name sd =
            (if Loader.has_key st "name" then Loader.get st "name" Loader.YNull
             else if Loader.has_key st "uses" then Loader.get st "uses" Loader.YNull
             else if Loader.has_key st "run" then Loader.get st "run" Loader.YNull
             else Loader.YStr "Unnamed step")
        ∧ (Loader.has_key st "uses" = false → Loader.step_uses sd = Loader.YNull)
        ∧ (Loader.has_key st "run" = false → Loader.step_run sd = Loader.YNull)
  | None => Loader.is_dict step = false
  end.
Proof.
  destruct step as [| | | | | | | | | | |st]; try reflexivity.
  simpl. exists st. split_and!; [done | | apply get_no_key..].
  destruct (Loader.has_key st "name") eqn:Hname.
  { by apply get_has_key. }
  rewrite (get_no_key st "name") by done.
  destruct (Loader.has_key st "uses") eqn:Huses.
  { by apply get_has_key. }
  rewrite (get_no_key st "uses") by done.
  destruct (Loader.has_key st "run") eqn:Hrun.
  { by apply get_has_key. }
  by rewrite (get_no_key st "run").
Qed.

Lemma text_has_no_steps (s : string) :
  omap Loader.parse_step
    ((λ c, Loader.YStr (String c EmptyString)) <$> String.list_ascii_of_string s) = [].
Proof. induction s as [| c s IH]; [done | exact IH]. Qed.

(** X17.  A job whose [steps] is a text, not a list, loads without
    error as a job with no steps: the loop visits its characters and
    skips each of them. *)
Theorem parse_jobs_text_steps (k : Loader.yaml)
    (jd : list (Loader.yaml * Loader.yaml)) (s : string)
    (rest : list (Loader.yaml * Loader.yaml)) (jobs : list Loader.job_dict) :
  Loader.get jd "steps" (Loader.YSeq []) = Loader.YStr s →
  Loader.parse_jobs rest = inr jobs →
  ∃ job, Loader.parse_jobs ((k, Loader.YMap jd) :: rest) = inr (job :: jobs)
         ∧ Loader.job_id job = k ∧ Loader.job_steps job = [].
Proof.
  intros Hsteps Hrest. simpl. rewrite Hsteps, Hrest. simpl.
  eexists. split; [reflexivity |]. simpl. split; [done |]. apply text_has_no_steps.
Qed.

Lemma parse_jobs_text_steps_witness :
  ∃ job, Loader.parse_jobs
           [(Loader.YStr "docs",
             Loader.YMap [(Loader.YStr "steps", Loader.YStr "make html")])]
         = inr [job]
         ∧ Loader.job_id job = Loader.YStr "docs" ∧ Loader.job_steps job = [].
Proof.
  refine (parse_jobs_text_steps (Loader.YStr "docs")
            [(Loader.YStr "steps", Loader.YStr "make html")] "make html" [] [] _ _);
    reflexivity.
Defined.

(** ** Validation *)

Section ValidateFacts.

Context `{!Loader.Files}.
Variable float_is_one : string → bool.

Lemma check_steps_structural job_id idx steps :
  Forall (λ m, Validator.structural m = true) (Validator.check_steps job_id idx steps).
Proof.
  revert idx. induction steps as [| step rest IH]; intros idx; simpl; [constructor |].
  apply Forall_app. split; [| apply IH].
  destruct step; simpl; repeat constructor.
  repeat case_match; repeat constructor.
Qed.

Lemma check_jobs_structural items :
  Forall (λ m, Validator.structural m = true) (Validator.check_jobs items).
Proof.
  induction items as [| [k v] rest IH]; simpl; [constructor |].
  apply Forall_app. split; [| exact IH].
  destruct v; simpl; repeat constructor.
  repeat case_match; repeat constructor;
    try (apply Forall_app; split; repeat constructor);
    apply check_steps_structural.
Qed.

Lemma check_steps_nil job_id idx steps :
  Validator.check_steps job_id idx steps = [] →
  length (omap Loader.parse_step steps) = length steps.
Proof.
  revert idx. induction steps as [| step rest IH]; intros idx; simpl; [done |].
  intros [Hstep Hrest]%app_eq_nil.
  destruct step; try discriminate Hstep. simpl. f_equal. by eapply IH.
Qed.

Lemma check_jobs_nil items :
  Validator.check_jobs items = [] →
  ∃ jobs, Loader.parse_jobs items = inr jobs
          ∧ length jobs = length items
          ∧ Forall (λ j, Loader.job_steps j ≠ []) jobs.
Proof.
  induction items as [| [k v] rest IH]; simpl.
  - intros _. exists []. by split_and!.
  - intros [Hjob Hrest]%app_eq_nil.
    destruct (IH Hrest) as (jobs & Hparse & Hlen & Hall).
    destruct v as [| | | | | | | | | | |jd]; try discriminate Hjob.
    simpl in Hjob.
    destruct (Loader.has_key jd "steps") eqn:Hkey; [| discriminate Hjob].
    simpl in Hjob.
    rewrite (get_has_key jd "steps" (Loader.YSeq []) Loader.YNull Hkey).
    destruct (Loader.get jd "steps" Loader.YNull) as [| | | | | | | |steps| | |];
      try discriminate Hjob.
    apply app_eq_nil in Hjob as [Hnonempty Hsteps].
    destruct steps as [| step steps]; [discriminate Hnonempty |].
    simpl Loader.iterate. cbv iota. rewrite Hparse.
    eexists. split; [reflexivity |]. simpl. split; [by rewrite Hlen |].
    constructor; [| exact Hall]. simpl.
    intros Hnil. apply check_steps_nil in Hsteps.
    change (omap Loader.parse_step (step :: steps) = []) in Hnil.
    rewrite Hnil in Hsteps. done.
Qed.

Lemma syntax_patterns_nil raw d errors :
  Validator._validate_syntax_patterns float_is_one raw d errors = [] → errors = [].
Proof.
  unfold Validator._validate_syntax_patterns.
  repeat case_match; intros Hnil; try done;
    repeat (apply app_eq_nil in Hnil as [Hnil ?]); done.
Qed.

Lemma syntax_patterns_elem raw d errors m :
  m ∈ Validator._validate_syntax_patterns float_is_one raw d errors ↔
  m ∈ errors
  ∨ (m = Validator.HintEmptyExpression ∧ Validator.contains "${{}}" raw = true)
  ∨ (m = Validator.WarnMissingOn ∧ Loader.has_key d "on" = false
     ∧ Validator.has_true_key float_is_one d = false).
Proof.
  unfold Validator._validate_syntax_patterns.
  destruct (Validator.contains _ raw), (Loader.has_key d "on"),
    (Validator.has_true_key float_is_one d); simpl;
    rewrite ?elem_of_app, ?list_elem_of_singleton; naive_solver.
Qed.

(** X18.  A file [validate] finds nothing wrong with always loads:
    [parse] returns a workflow with at least one job, every entry of
    [jobs] kept, and at least one step in every job. *)
Theorem validate_clean_parses (path : Loader.Path) :
  Validator.validate float_is_one path = inr [] →
  ∃ w, Loader.parse {| Loader.workflow_path := path |} = inr w
       ∧ Loader.wf_jobs w ≠ []
       ∧ Forall (λ j, Loader.job_steps j ≠ []) (Loader.wf_jobs w).
Proof.
  unfold Validator.validate, Loader.parse. simpl.
  destruct (Loader.path_exists path); simpl; [| done].
  destruct (Loader.open_read path) as [| text]; [done |].
  destruct (Loader.safe_load text) as [| | data]; [done.. |].
  destruct data as [| | | | | | | | | | |d]; try done.
  destruct (Loader.has_key d "jobs") eqn:Hkey; simpl; [| done].
  rewrite (get_has_key d "jobs" (Loader.YMap []) Loader.YNull Hkey).
  destruct (Loader.get d "jobs" Loader.YNull) as [| | | | | | | | | | |items]; try done.
  intros [= Hnil]. apply syntax_patterns_nil in Hnil.
  apply app_eq_nil in Hnil as [Hsome Hjobs].
  destruct (check_jobs_nil items Hjobs) as (jobs & -> & Hlen & Hall).
  eexists. split; [reflexivity |]. simpl. split; [| exact Hall].
  destruct items; [discriminate Hsome |]. by destruct jobs.
Qed.


(** X20.  The two advisory messages are added only once the structural
    pass has gone through all jobs, and then exactly on their own
    conditions: the hint when the raw text contains [${{}}], the warning
    when the document has neither an [on] key nor a key equal to [True].
    When [validate] stops early (missing file, invalid YAML, no mapping,
    no [jobs], [jobs] not a mapping) it returns one structural message
    and neither of them. *)
Theorem validate_advisories (path : Loader.Path) (errors : list Validator.message) :
  Validator.validate float_is_one path = inr errors →
  (∃ text d jobs,
      Loader.open_read path = Loader.Opened text
      ∧ Loader.safe_load text = Loader.Document (Loader.YMap d)
      ∧ Loader.has_key d "jobs" = true
      ∧ Loader.get d "jobs" Loader.YNull = Loader.YMap jobs
      ∧ (Validator.HintEmptyExpression ∈ errors
         ↔ Validator.contains "${{}}" text = true)
      ∧ (Validator.WarnMissingOn ∈ errors
         ↔ Loader.has_key d "on" = false
           ∧ Validator.has_true_key float_is_one d = false))
  ∨ (∃ m, errors = [m] ∧ Validator.structural m = true).
Proof.
  unfold Validator.validate.
  destruct (Loader.path_exists path); simpl; [| intros [= <-]; right; by eexists].
  destruct (Loader.open_read path) as [| text]; [done |].
  destruct (Loader.safe_load text) as [| | data] eqn:Hload;
    [intros [= <-]; right; by eexists | done |].
  destruct data as [| | | | | | | | | | |d];
    try (intros [= <-]; right; by eexists).
  destruct (Loader.has_key d "jobs") eqn:Hkey; simpl;
    [| intros [= <-]; right; by eexists].
  destruct (Loader.get d "jobs" Loader.YNull) as [| | | | | | | | | | |items] eqn:Hjobs;
    try (intros [= <-]; right; by eexists).
  intros [= <-]. left. exists text, d, items. split_and!; try done.
  - rewrite syntax_patterns_elem. split; [| by eauto].
    intros [Hin | [[_ ?] | [[=] _]]]; [| done].
    exfalso. apply elem_of_app in Hin as [Hin | Hin].
    + destruct items; [| by apply elem_of_nil in Hin].
      by apply list_elem_of_singleton in Hin.
    + assert (Hs := check_jobs_structural items).
      rewrite Forall_forall in Hs. by specialize (Hs _ Hin).
  - rewrite syntax_patterns_elem. split; [| by eauto].
    intros [Hin | [[[=] _] | [_ ?]]]; [| done].
    exfalso. apply elem_of_app in Hin as [Hin | Hin].
    + destruct items; [| by apply elem_of_nil in Hin].
      by apply list_elem_of_singleton in Hin.
    + assert (Hs := check_jobs_structural items).
      rewrite Forall_forall in Hs. by specialize (Hs _ Hin).
Qed.

End ValidateFacts.

Lemma validate_clean_parses_witness :
  ∃ w, @Loader.parse Demo.build_files {| Loader.workflow_path := Demo.build_yml |} = inr w
       ∧ Loader.wf_jobs w ≠ []
       ∧ Forall (λ j, Loader.job_steps j ≠ []) (Loader.wf_jobs w).
Proof.
  refine (@validate_clean_parses Demo.build_files (λ _, false) Demo.build_yml _).
  reflexivity.
Defined.

Lemma validate_advisories_witness :
  (∃ text d jobs,
      @Loader.open_read Demo.files (Loader.workflow_path Demo.ci_yml) = Loader.Opened text
      ∧ @Loader.safe_load Demo.files text = Loader.Document (Loader.YMap d)
      ∧ Loader.has_key d "jobs" = true
      ∧ Loader.get d "jobs" Loader.YNull = Loader.YMap jobs
      ∧ (Validator.HintEmptyExpression ∈ [Validator.JobsNotDictionary]
         ↔ Validator.contains "${{}}" text = true)
      ∧ (Validator.WarnMissingOn ∈ [Validator.JobsNotDictionary]
         ↔ Loader.has_key d "on" = false
           ∧ Validator.has_true_key (λ _, false) d = false))
  ∨ (∃ m, [Validator.JobsNotDictionary] = [m] ∧ Validator.structural m = true).
Proof.
  refine (@validate_advisories Demo.files (λ _, false)
            (Loader.workflow_path Demo.ci_yml) [Validator.JobsNotDictionary] _).
  reflexivity.
Defined.
